(** * Transport layer of the collective-authority framework

    A shallow embedding of the [network] package: the virtual transport
    ([LocalContext], [LocalConn], [connQueue], [LocalListener], [LocalHost])
    and the socket transport ([TCPConn], [TCPListener], [NewTCPConn]).

    Conventions of the embedding.
    - Go maps are [gmap]s.  Pointers to [connQueue] are indices into a heap
      (a list of queues), so that the registry and a connection alias the
      same queue, as they do in the source.
    - A mutex-protected method body is one atomic transition; goroutines
      started with [go] are recorded, not run.
    - A call that would suspend the calling goroutine yields [Blocks]; a Go
      panic yields [Panics].
    - [uint64] values are [Z] with the wrap-around written out. *)

From Stdlib Require Import ZArith Lia.
From Stdlib.Strings Require Import Byte.
From stdpp Require Import gmap strings list.

(** ** Addresses *)

(** Modelled from the spec: the connection-type tag is declared elsewhere
    in the package; the spec gives [enum{Socket, Virtual}] and the code
    names the two tags [PlainTCP] and [Local]. *)
Inductive ConnType := PlainTCP | Local.

#[global] Instance ConnType_eq_dec : EqDecision ConnType.
Proof. solve_decision. Defined.

#[global] Instance ConnType_countable : Countable ConnType.
Proof.
  apply (inj_countable' (λ t, match t with PlainTCP => false | Local => true end)
                        (λ b : bool, if b then Local else PlainTCP)).
  by intros [].
Defined.

(** Modelled from the spec: [Address] is declared elsewhere in the
    package; the spec gives [{ connType, location }], immutable and compared
    by value. *)
Record Address := NewAddress { ConnType_of : ConnType; NetworkAddress : string }.

#[global] Instance Address_eq_dec : EqDecision Address.
Proof. solve_decision. Defined.

#[global] Instance Address_countable : Countable Address.
Proof.
  apply (inj_countable' (λ a, (ConnType_of a, NetworkAddress a))
                        (λ p, NewAddress p.1 p.2)).
  by intros [].
Defined.

(** The value of an [Address] field that a composite literal leaves out. *)
Definition Address_zero : Address := NewAddress PlainTCP "".

Definition NewLocalAddress (addr : string) : Address := NewAddress Local addr.

(** ** Machine integers *)

Definition uint64_modulus : Z := 2 ^ 64.

Definition uint64_add (a b : Z) : Z := ((a + b) mod uint64_modulus)%Z.

(** ** Errors *)

(** Errors raised below the package: by [io], [net] and the operating
    system.  [sys_net] is a value implementing [net.Error]. *)
Inductive syserror :=
| io_EOF
| sys_plain (msg : string)
| sys_net (msg : string) (temporary timeout : bool).

Definition sys_Error (e : syserror) : string :=
  match e with
  | io_EOF => "EOF"
  | sys_plain msg => msg
  | sys_net msg _ _ => msg
  end.

(** A value recovered from a panic. *)
Inductive PanicValue :=
| runtime_error (msg : string)
| panic_value (v : string).

(** The package's sentinel errors, the errors it builds with [errors.New]
    and [fmt.Errorf] (kept as the format applied to its arguments), and
    errors of a lower layer passed through unchanged. *)
Inductive error :=
| ErrClosed
| ErrCanceled
| ErrEOF
| ErrTemp
| ErrTimeout
| ErrUnknown
| errors_New (msg : string)
| fmt_Errorf (format : string) (args : list fmtArg)
| sysError (e : syserror)
with fmtArg :=
| ArgAddress (a : Address)
| ArgString (s : string)
| ArgError (e : error)
| ArgPanic (v : PanicValue)
| ArgConnType (t : ConnType)
| ArgNil.

(** ** Outcomes of a call *)

Inductive Outcome (A : Type) :=
| Return (a : A)
| Panics (v : PanicValue)
| Blocks.
Arguments Return {A} a.
Arguments Panics {A} v.
Arguments Blocks {A}.

(** ** Cancellation contexts *)

(** A [context.Context] as far as the transport could observe it. *)
Record context_Context := { ctx_cancelled : bool }.

Definition context_Background : context_Context := {| ctx_cancelled := false |}.
Definition context_Cancelled : context_Context := {| ctx_cancelled := true |}.

(** ** Endpoints of the virtual transport *)

Record endpoint := Endpoint { addr : Address; uid : Z }.

#[global] Instance endpoint_eq_dec : EqDecision endpoint.
Proof. solve_decision. Defined.

#[global] Instance endpoint_countable : Countable endpoint.
Proof.
  apply (inj_countable' (λ e, (addr e, uid e)) (λ p, Endpoint p.1 p.2)).
  by intros [].
Defined.

(** ** Channels used as quit signals *)

Inductive chan := ChanOpen | ChanClosed.

Definition chan_close (c : chan) : Outcome chan :=
  match c with
  | ChanOpen => Return ChanClosed
  | ChanClosed => Panics (runtime_error "close of closed channel")
  end.

(** What a connection attempt lets an observer see. *)
Inductive Event :=
| EvConnect (local remote : Address)
| EvDial (address : string)
| EvSleep (d : Z).

#[global] Instance Event_eq_dec : EqDecision Event.
Proof. solve_decision. Defined.

(** ** Bytes on the wire *)

Inductive ByteOrder := BigEndian | LittleEndian.

Definition byte_of_Z (z : Z) : Byte.byte :=
  match Byte.of_N (Z.to_N (z mod 256)) with
  | Some b => b
  | None => Byte.x00
  end.

Definition Z_of_byte (b : Byte.byte) : Z := Z.of_N (Byte.to_N b).

(** The [n] low-order bytes of [v], least significant first. *)
Fixpoint le_bytes (n : nat) (v : Z) : list Byte.byte :=
  match n with
  | O => []
  | S n' => byte_of_Z v :: le_bytes n' (v / 256)
  end.

Definition le_value (bs : list Byte.byte) : Z :=
  foldr (λ b acc, Z_of_byte b + 256 * acc)%Z 0%Z bs.

(** What a call of [Write], resp. [Read], on the socket meets: [Write]
    takes the whole slice or fails; [Read] finds some bytes or fails. *)
Inductive WriteOutcome := WriteOk | WriteErr (err : syserror).

Inductive ReadOutcome := ReadData (bs : list Byte.byte) | ReadErr (err : syserror).

(** [strings.Contains]. *)
Fixpoint strings_Contains (s substr : string) : bool :=
  if String.prefix substr s then true
  else match s with
       | EmptyString => false
       | String _ s' => strings_Contains s' substr
       end.

(** [substr] occurs somewhere in [s]: what [strings.Contains] decides. *)
Definition mentions (s substr : string) : Prop :=
  ∃ pre post, s = pre +:+ substr +:+ post.

(** [handleError] sorts an error of the lower layer into the package's
    kinds. *)
Definition handleError (err : syserror) : error :=
  let msg := sys_Error err in
  if strings_Contains msg "use of closed" || strings_Contains msg "broken pipe" then
    ErrClosed
  else if strings_Contains msg "canceled" then
    ErrCanceled
  else if match err with io_EOF => true | _ => false end || strings_Contains msg "EOF" then
    ErrEOF
  else
    match err with
    | sys_net _ temporary timeout =>
        if temporary then ErrTemp
        else if timeout then ErrTimeout
        else ErrUnknown
    | _ => ErrUnknown
    end.

(** A [net.Listener]: closing it twice is an error. *)
Inductive netListener := ListenerOpen | ListenerClosed.

Definition netListener_Close (l : netListener) : option syserror * netListener :=
  match l with
  | ListenerOpen => (None, ListenerClosed)
  | ListenerClosed =>
      (Some (sys_net "use of closed network connection" false false), ListenerClosed)
  end.

(** ** reflect *)

(** What [reflect.ValueOf] makes of a message, as far as [Send] looks at
    it: the zero [Value] (of the nil interface), a pointer with what
    [Elem] finds behind it (nothing, for a nil pointer), or a value of
    any other kind. *)
Inductive reflect_Value (Body : Type) :=
| reflect_Invalid
| reflect_Ptr (elem : option Body)
| reflect_Other.
Arguments reflect_Invalid {Body}.
Arguments reflect_Ptr {Body} elem.
Arguments reflect_Other {Body}.

Section Network.

(** Message bodies, their type tags and accept callbacks are opaque to the
    transport. *)
Context {Body MessageTypeID Callback : Type}.

(** [TypeFromData] is declared elsewhere in the package. *)
Variable TypeFromData : Body → MessageTypeID.

(** [reflect.ValueOf] on message bodies. *)
Variable reflect_ValueOf : Body → reflect_Value Body.

Record Packet := { MsgType : MessageTypeID; Msg : Body; From : Address }.

(** The empty packet returned next to an error ([EmptyApplicationPacket],
    in the socket transport [EmptyApplicationMessage]); declared elsewhere
    in the package. *)
Variable EmptyApplicationPacket : Packet.

(** ** connQueue *)

Record connQueue := { queue : list Packet; isClosed : bool }.

Definition newConnQueue : connQueue := {| queue := []; isClosed := false |}.

Definition connQueue_Push (c : connQueue) (p : Packet) : connQueue :=
  if isClosed c then c
  else {| queue := queue c ++ [p]; isClosed := isClosed c |}.

(** [Pop]: the loop waits while the queue is empty and open; past the loop
    a closed queue reports [ErrClosed] whatever it holds. *)
Definition connQueue_Pop (c : connQueue)
  : Outcome (Packet * option error) * connQueue :=
  match queue c with
  | [] =>
      if isClosed c then (Return (EmptyApplicationPacket, Some ErrClosed), c)
      else (Blocks, c)
  | nm :: rest =>
      if isClosed c then (Return (EmptyApplicationPacket, Some ErrClosed), c)
      else (Return (nm, None), {| queue := rest; isClosed := isClosed c |})
  end.

Definition connQueue_Close (c : connQueue) : connQueue :=
  {| queue := queue c; isClosed := true |}.

(** [n] successive calls of [Pop]; the results in call order. *)
Fixpoint connQueue_Pops (n : nat) (c : connQueue)
  : list (Outcome (Packet * option error)) * connQueue :=
  match n with
  | O => ([], c)
  | S n' =>
      let '(r, c') := connQueue_Pop c in
      let '(rs, c'') := connQueue_Pops n' c' in
      (r :: rs, c'')
  end.


(** ** LocalContext *)

(** [queues] maps an endpoint to (a pointer to) its packet queue,
    [listening] maps a listening address to its accept callback. *)
Record LocalContext := {
  queues : gmap endpoint nat;
  listening : gmap Address Callback;
  baseUid : Z
}.

Definition NewLocalContext : LocalContext :=
  {| queues := ∅; listening := ∅; baseUid := 0 |}.

(** [LocalConn]: its two endpoints and the pointer to its own queue.  The
    [ctx] field of the source is the context threaded through the calls. *)
Record LocalConn := {
  local : endpoint;
  remote : endpoint;
  connQueue_of : nat
}.

(** The registry, the heap of queues, and the goroutines started so far
    (the callback and the connection it was started on). *)
Record World := {
  ctx : LocalContext;
  heap : list connQueue;
  spawned : list (Callback * LocalConn)
}.

Definition NewWorld : World :=
  {| ctx := NewLocalContext; heap := []; spawned := [] |}.

Definition LocalContext_IsListening (ccc : LocalContext) (remote : Address) : bool :=
  match listening ccc !! remote with
  | Some _ => true
  | None => false
  end.

Definition LocalContext_Listening (ccc : LocalContext) (addr : Address) (fn : Callback)
  : LocalContext :=
  {| queues := queues ccc;
     listening := <[addr := fn]> (listening ccc);
     baseUid := baseUid ccc |}.

Definition LocalContext_StopListening (ccc : LocalContext) (addr : Address)
  : LocalContext :=
  {| queues := queues ccc;
     listening := delete addr (listening ccc);
     baseUid := baseUid ccc |}.

(** [newLocalConn]: allocates the connection's queue. *)
Definition newLocalConn (h : list connQueue) (local remote : endpoint)
  : LocalConn * list connQueue :=
  ({| local := local; remote := remote; connQueue_of := length h |},
   h ++ [newConnQueue]).

(** The error of [Connect] to an address that is not listening. *)
Definition not_listening_error (local remote : Address) : error :=
  fmt_Errorf "%s can't connect to %s: it's not listening"
             [ArgAddress local; ArgAddress remote].

Definition LocalContext_Connect (w : World) (local remote : Address)
  : (option LocalConn * option error) * World :=
  let ccc := ctx w in
  match listening ccc !! remote with
  | None => ((None, Some (not_listening_error local remote)), w)
  | Some fn =>
      let outEndpoint := Endpoint local (baseUid ccc) in
      let uid1 := uint64_add (baseUid ccc) 1 in
      let incEndpoint := Endpoint remote uid1 in
      let uid2 := uint64_add uid1 1 in
      let '(outgoing, h1) := newLocalConn (heap w) outEndpoint incEndpoint in
      let '(incoming, h2) := newLocalConn h1 incEndpoint outEndpoint in
      let qs1 := <[outEndpoint := connQueue_of outgoing]> (queues ccc) in
      let qs2 := <[incEndpoint := connQueue_of incoming]> qs1 in
      ((Some outgoing, None),
       {| ctx := {| queues := qs2; listening := listening ccc; baseUid := uid2 |};
          heap := h2;
          spawned := spawned w ++ [(fn, incoming)] |})
  end.

Definition LocalContext_Send (w : World) (e : endpoint) (nm : Packet)
  : option error * World :=
  match queues (ctx w) !! e with
  | None => (Some ErrClosed, w)
  | Some q =>
      (None,
       {| ctx := ctx w;
          heap := alter (λ c, connQueue_Push c nm) q (heap w);
          spawned := spawned w |})
  end.

Definition LocalContext_Close (w : World) (conn : LocalConn) : World :=
  let ccc := ctx w in
  let qs1 := delete (local conn) (queues ccc) in
  match qs1 !! remote conn with
  | None =>
      {| ctx := {| queues := qs1; listening := listening ccc; baseUid := baseUid ccc |};
         heap := heap w;
         spawned := spawned w |}
  | Some remote_q =>
      {| ctx := {| queues := delete (remote conn) qs1;
                   listening := listening ccc;
                   baseUid := baseUid ccc |};
         heap := alter connQueue_Close remote_q (heap w);
         spawned := spawned w |}
  end.

Definition LocalContext_Len (ccc : LocalContext) : nat := size (queues ccc).

(** ** LocalConn *)

Definition NewLocalConnWithContext (w : World) (local remote : Address)
  : (option LocalConn * option error) * World :=
  LocalContext_Connect w local remote.

(** The body [Send] extracts from its argument with [reflect]: a pointer
    is followed; of the nil interface and of a nil pointer there is no
    value to take, and [Interface] panics. *)
Definition sent_body (msg : Body) : Outcome Body :=
  match reflect_ValueOf msg with
  | reflect_Ptr (Some v) => Return v
  | reflect_Other => Return msg
  | reflect_Ptr None | reflect_Invalid =>
      Panics (panic_value "reflect: call of reflect.Value.Interface on zero Value")
  end.

(** [Send]: the body is taken with [reflect], and a panic there comes
    before anything is queued; the packet literal sets [MsgType] and
    [Msg] only. *)
Definition LocalConn_Send (w : World) (cc : LocalConn) (_ : context_Context) (msg : Body)
  : Outcome (option error) * World :=
  match sent_body msg with
  | Return body =>
      let typ := TypeFromData body in
      let nm := {| MsgType := typ; Msg := body; From := Address_zero |} in
      let '(err, w') := LocalContext_Send w (remote cc) nm in
      (Return err, w')
  | Panics v => (Panics v, w)
  | Blocks => (Blocks, w)
  end.

Definition LocalConn_Receive (w : World) (cc : LocalConn) (_ : context_Context)
  : Outcome (Packet * option error) * World :=
  match heap w !! connQueue_of cc with
  | None => (Panics (runtime_error "invalid memory address or nil pointer dereference"), w)
  | Some c =>
      let '(r, c') := connQueue_Pop c in
      (r, {| ctx := ctx w;
             heap := <[connQueue_of cc := c']> (heap w);
             spawned := spawned w |})
  end.

Definition LocalConn_Local (cc : LocalConn) : Address := addr (local cc).

Definition LocalConn_Remote (cc : LocalConn) : Address := addr (remote cc).

Definition LocalConn_Close (w : World) (cc : LocalConn) : option error * World :=
  let w1 := {| ctx := ctx w;
               heap := alter connQueue_Close (connQueue_of cc) (heap w);
               spawned := spawned w |} in
  (None, LocalContext_Close w1 cc).

Definition LocalConn_Rx (cc : LocalConn) : Z := 0.

Definition LocalConn_Tx (cc : LocalConn) : Z := 0.

Definition LocalConn_Type (cc : LocalConn) : ConnType := Local.

(** ** Retry policy *)

(** The constants of the retry policy, declared elsewhere in the package:
    the attempt bounds and the delay between attempts. *)
Variable MaxRetryConnect : nat.
Variable MaxRetry : nat.
Variable WaitRetry : Z.

(** ** LocalListener *)

Record LocalListener := {
  ll_addr : Address;
  ll_listening : bool;
  ll_quit : chan
}.

Definition LocalListener_bind (ccc : LocalContext) (ll : LocalListener) (addr : Address)
  : option error * LocalListener :=
  if negb (bool_decide (ConnType_of addr = Local)) then
    (Some (errors_New "Wrong address type for local listener"), ll)
  else if LocalContext_IsListening ccc addr then
    (Some (fmt_Errorf "%s is already listening: can't listen again" [ArgAddress addr]), ll)
  else
    (None, {| ll_addr := addr; ll_listening := ll_listening ll; ll_quit := ll_quit ll |}).

Definition NewLocalListenerWithContext (ccc : LocalContext) (addr : Address)
  : LocalListener * option error :=
  let l := {| ll_addr := Address_zero; ll_listening := false; ll_quit := ChanOpen |} in
  let '(err, l') := LocalListener_bind ccc l addr in
  (l', err).

(** [Listen] registers the callback and then waits on the quit channel it
    has just made. *)
Definition LocalListener_Listen (ccc : LocalContext) (ll : LocalListener) (fn : Callback)
  : Outcome (option error) * LocalListener * LocalContext :=
  (Blocks,
   {| ll_addr := ll_addr ll; ll_listening := true; ll_quit := ChanOpen |},
   LocalContext_Listening ccc (ll_addr ll) fn).

Definition LocalListener_Stop (ccc : LocalContext) (ll : LocalListener)
  : Outcome (option error) * LocalListener * LocalContext :=
  let ccc' := LocalContext_StopListening ccc (ll_addr ll) in
  if ll_listening ll then
    match chan_close (ll_quit ll) with
    | Return q =>
        (Return None, {| ll_addr := ll_addr ll; ll_listening := false; ll_quit := q |}, ccc')
    | Panics v => (Panics v, ll, ccc')
    | Blocks => (Blocks, ll, ccc')
    end
  else
    (Return None, {| ll_addr := ll_addr ll; ll_listening := false; ll_quit := ll_quit ll |}, ccc').

(** ** LocalHost *)

Record LocalHost := {
  lh_addr : Address;
  lh_listener : LocalListener
}.

Definition NewLocalHostWithContext (ccc : LocalContext) (addr : Address)
  : LocalHost * option error :=
  let '(l, err) := NewLocalListenerWithContext ccc addr in
  ({| lh_addr := addr; lh_listener := l |}, err).

(** The retry loop of [LocalHost.Connect] with [n] iterations left. *)
Fixpoint LocalHost_Connect_loop (n : nat) (w : World) (own addr : Address)
    (finalErr : option error)
  : (option LocalConn * option error) * World * list Event :=
  match n with
  | O => ((None, finalErr), w, [])
  | S n' =>
      match NewLocalConnWithContext w own addr with
      | ((c, None), w') => ((c, None), w', [EvConnect own addr])
      | ((_, Some err), w') =>
          let '(r, w'', tr) := LocalHost_Connect_loop n' w' own addr (Some err) in
          (r, w'', EvConnect own addr :: EvSleep WaitRetry :: tr)
      end
  end.

Definition LocalHost_Connect (w : World) (lh : LocalHost) (addr : Address)
  : (option LocalConn * option error) * World * list Event :=
  if negb (bool_decide (ConnType_of addr = Local)) then
    ((None, Some (errors_New "Can't connect to non-Local address")), w, [])
  else
    LocalHost_Connect_loop MaxRetryConnect w (lh_addr lh) addr None.

(** ** Socket transport: the byte stream underneath *)

(** The width in bytes of the length prefix ([Size]) and the byte order
    ([globalOrder]) are declared elsewhere in the package. *)
Variable Size_bytes : nat.
Variable globalOrder : ByteOrder.

Definition Size_modulus : Z := 2 ^ (8 * Z.of_nat Size_bytes).

(** Conversion to [Size]: truncation to the width of the type. *)
Definition to_Size (n : Z) : Z := (n mod Size_modulus)%Z.

Definition maxChunkSize : Z := 1400.

(** [binary.Write] of a [Size]. *)
Definition Size_encode (n : Z) : list Byte.byte :=
  match globalOrder with
  | LittleEndian => le_bytes Size_bytes n
  | BigEndian => rev (le_bytes Size_bytes n)
  end.

(** [binary.Read] of a [Size]. *)
Definition Size_decode (bs : list Byte.byte) : Z :=
  match globalOrder with
  | LittleEndian => le_value bs
  | BigEndian => le_value (rev bs)
  end.

(** The [net.Conn] of a connection: its two addresses and the slices its
    [Write] has accepted, oldest first. *)
Record netConn := {
  nc_LocalAddr : string;
  nc_RemoteAddr : string;
  nc_written : list (list Byte.byte)
}.

Definition netConn_accept (nc : netConn) (p : list Byte.byte) : netConn :=
  {| nc_LocalAddr := nc_LocalAddr nc;
     nc_RemoteAddr := nc_RemoteAddr nc;
     nc_written := nc_written nc ++ [p] |}.

(** ** TCPConn *)

Record TCPConn := {
  tc_endpoint : string;
  tc_conn : netConn;
  tc_closed : bool;
  bRx : Z;
  bTx : Z
}.

Definition TCPConn_with_conn (c : TCPConn) (nc : netConn) : TCPConn :=
  {| tc_endpoint := tc_endpoint c; tc_conn := nc; tc_closed := tc_closed c;
     bRx := bRx c; bTx := bTx c |}.

Definition TCPConn_addReadBytes (c : TCPConn) (b : Z) : TCPConn :=
  {| tc_endpoint := tc_endpoint c; tc_conn := tc_conn c; tc_closed := tc_closed c;
     bRx := uint64_add (bRx c) b; bTx := bTx c |}.

Definition TCPConn_addWrittenBytes (c : TCPConn) (b : Z) : TCPConn :=
  {| tc_endpoint := tc_endpoint c; tc_conn := tc_conn c; tc_closed := tc_closed c;
     bRx := bRx c; bTx := uint64_add (bTx c) b |}.

Definition TCPConn_Rx (c : TCPConn) : Z := bRx c.

Definition TCPConn_Tx (c : TCPConn) : Z := bTx c.

Definition TCPConn_Remote (c : TCPConn) : string := tc_endpoint c.

Definition TCPConn_Local (c : TCPConn) : string := nc_LocalAddr (tc_conn c).

Definition TCPConn_Type (c : TCPConn) : ConnType := PlainTCP.

(** The chunk loop of [send].  [env] schedules the coming calls of
    [Write]; the loop variables are [sent] and the remaining slice [b]. *)
Fixpoint TCPConn_send_loop (env : list WriteOutcome) (c : TCPConn)
    (packetSize sent : Z) (b : list Byte.byte)
  : Outcome (option error) * TCPConn * list WriteOutcome :=
  if negb (sent <? packetSize)%Z then
    (Return None, TCPConn_addWrittenBytes c packetSize, env)
  else
    let length0 := to_Size (packetSize - sent) in
    let length1 := if (length0 >? maxChunkSize)%Z then maxChunkSize else length0 in
    if (length1 >? Z.of_nat (length b))%Z then
      (Panics (runtime_error "slice bounds out of range"), c, env)
    else
      match env with
      | [] => (Blocks, c, [])
      | WriteErr err :: env' => (Return (Some (handleError err)), c, env')
      | WriteOk :: env' =>
          let chunk := take (Z.to_nat length1) b in
          let n := Z.of_nat (length chunk) in
          let c' := TCPConn_with_conn c (netConn_accept (tc_conn c) chunk) in
          TCPConn_send_loop env' c' packetSize (to_Size (sent + n))
                            (drop (Z.to_nat n) b)
      end.

(** [send]: the length prefix, then the payload chunk by chunk. *)
Definition TCPConn_send (env : list WriteOutcome) (c : TCPConn) (b : list Byte.byte)
  : Outcome (option error) * TCPConn * list WriteOutcome :=
  let packetSize := to_Size (Z.of_nat (length b)) in
  match env with
  | [] => (Blocks, c, [])
  | WriteErr err :: env' => (Return (Some (sysError err)), c, env')
  | WriteOk :: env' =>
      let c' := TCPConn_with_conn c (netConn_accept (tc_conn c) (Size_encode packetSize)) in
      TCPConn_send_loop env' c' packetSize 0 b
  end.

(** Whether [send] ran to its end and returned no error. *)
Definition send_finished (r : Outcome (option error)) : bool :=
  match r with Return None => true | _ => false end.

(** The number of chunks a payload of [n] bytes is cut into. *)
Definition chunks_needed (n : nat) : nat := (n + 1399) / 1400.

(** The envelope codec, declared elsewhere in the package:
    [NewNetworkMessage], [MarshalBinary], and [UnmarshalBinary], which
    yields the packet as far as it was filled together with its error, or
    panics. *)
Variable NewNetworkMessage : Body → Packet + error.
Variable Packet_MarshalBinary : Packet → list Byte.byte + error.
Variable Packet_UnmarshalBinary : list Byte.byte → Outcome (Packet * option error).
Variable MessageTypeID_String : MessageTypeID → string.

Definition TCPConn_Send (env : list WriteOutcome) (c : TCPConn) (_ : context_Context) (obj : Body)
  : Outcome (option error) * TCPConn * list WriteOutcome :=
  match NewNetworkMessage obj with
  | inr err =>
      (Return (Some (fmt_Errorf "Error converting packet: %v\n" [ArgError err])), c, env)
  | inl am =>
      match Packet_MarshalBinary am with
      | inr err =>
          (Return (Some (fmt_Errorf "Error marshaling  message: %s" [ArgError err])), c, env)
      | inl b => TCPConn_send env c b
      end
  end.

(** [io.ReadFull] as [binary.Read] uses it: [need] bytes are still
    missing, [acc] holds those read so far. *)
Fixpoint io_ReadFull (env : list ReadOutcome) (need : nat) (acc : list Byte.byte)
  : Outcome (list Byte.byte * option syserror) * list ReadOutcome :=
  match need with
  | O => (Return (acc, None), env)
  | S _ =>
      match env with
      | [] => (Blocks, [])
      | ReadErr err :: env' =>
          match err, acc with
          | io_EOF, _ :: _ => (Return (acc, Some (sys_plain "unexpected EOF")), env')
          | _, _ => (Return (acc, Some err), env')
          end
      | ReadData bs :: env' =>
          if decide (length bs ≤ need) then
            io_ReadFull env' (need - length bs) (acc ++ bs)
          else
            (Return (acc ++ take need bs, None), ReadData (drop need bs) :: env')
      end
  end.

(** The read loop of [receive].  Every call of [Read] is given the whole
    buffer of [total] bytes.  [fuel] bounds the iterations; [receive]
    starts it with more than the stream can feed. *)
Fixpoint TCPConn_receive_loop (fuel : nat) (env : list ReadOutcome)
    (total read : Z) (buffer : list Byte.byte)
  : Outcome (list Byte.byte * Z * option error) * list ReadOutcome :=
  if negb (read <? total)%Z then (Return (buffer, read, None), env)
  else
    match fuel with
    | O => (Blocks, env)
    | S fuel' =>
        match env with
        | [] => (Blocks, [])
        | ReadErr err :: env' => (Return ([], read, Some (handleError err)), env')
        | ReadData bs :: env' =>
            let n := Nat.min (length bs) (Z.to_nat total) in
            let env'' := if decide (length bs ≤ Z.to_nat total) then env'
                         else ReadData (drop n bs) :: env' in
            TCPConn_receive_loop fuel' env'' total
                                 (to_Size (read + Z.of_nat n)) (buffer ++ take n bs)
        end
    end.

Definition stream_weight (env : list ReadOutcome) : nat :=
  foldr (λ o acc, match o with
                  | ReadData bs => S (length bs + acc)
                  | ReadErr _ => S acc
                  end) 0%nat env.

(** [receive]: the length prefix, then the payload. *)
Definition TCPConn_receive (env : list ReadOutcome) (c : TCPConn)
  : Outcome (list Byte.byte * option error) * TCPConn * list ReadOutcome :=
  match io_ReadFull env Size_bytes [] with
  | (Blocks, env') => (Blocks, c, env')
  | (Panics v, env') => (Panics v, c, env')
  | (Return (_, Some err), env') => (Return ([], Some (handleError err)), c, env')
  | (Return (prefix, None), env') =>
      let total := Size_decode prefix in
      match TCPConn_receive_loop (S (stream_weight env')) env' total 0 [] with
      | (Blocks, env'') => (Blocks, c, env'')
      | (Panics v, env'') => (Panics v, c, env'')
      | (Return (_, _, Some err), env'') => (Return ([], Some err), c, env'')
      | (Return (buffer, read, None), env'') =>
          (Return (buffer, None), TCPConn_addReadBytes c read, env'')
      end
  end.

(** The body of [Receive], before the deferred function runs.  The
    source assigns the string [c.Remote()] to [From]: as an [Address] that
    is the socket address under the [PlainTCP] tag. *)
Definition TCPConn_Receive_body (env : list ReadOutcome) (c : TCPConn)
  : Outcome (Packet * option error) * TCPConn * list ReadOutcome :=
  match TCPConn_receive env c with
  | (Blocks, c', env') => (Blocks, c', env')
  | (Panics v, c', env') => (Panics v, c', env')
  | (Return (_, Some err), c', env') =>
      (Return (EmptyApplicationPacket, Some err), c', env')
  | (Return (buff, None), c', env') =>
      match Packet_UnmarshalBinary buff with
      | Blocks => (Blocks, c', env')
      | Panics v => (Panics v, c', env')
      | Return (am, Some err) =>
          (Return (EmptyApplicationPacket,
                   Some (fmt_Errorf "Error unmarshaling message type %s: %s"
                                    [ArgString (MessageTypeID_String (MsgType am));
                                     ArgError err])), c', env')
      | Return (am, None) =>
          (Return ({| MsgType := MsgType am; Msg := Msg am;
                      From := NewAddress PlainTCP (TCPConn_Remote c') |}, None),
           c', env')
      end
  end.

(** [Receive]: the deferred function recovers a panic of the body and
    turns it into the results. *)
Definition TCPConn_Receive (env : list ReadOutcome) (c : TCPConn) (_ : context_Context)
  : Outcome (Packet * option error) * TCPConn * list ReadOutcome :=
  match TCPConn_Receive_body env c with
  | (Panics v, c', env') =>
      (Return (EmptyApplicationPacket,
               Some (fmt_Errorf "Error Received message: %v" [ArgPanic v])), c', env')
  | r => r
  end.

(** [closeErr] is what closing the socket reports. *)
Definition TCPConn_Close (closeErr : option syserror) (c : TCPConn)
  : option error * TCPConn :=
  if tc_closed c then (None, c)
  else
    (handleError <$> closeErr,
     {| tc_endpoint := tc_endpoint c; tc_conn := tc_conn c; tc_closed := true;
        bRx := bRx c; bTx := bTx c |}).

(** ** NewTCPConn *)

(** The dial loop with [n] iterations left, the next being iteration [i];
    [dials i] is what the [i]-th call of [net.Dial] meets. *)
Fixpoint NewTCPConn_loop (n i : nat) (dials : nat → netConn + syserror)
    (address : string) (conn : option netConn) (err : option syserror)
  : (option netConn * option syserror) * list Event :=
  match n with
  | O => ((conn, err), [])
  | S n' =>
      match dials i with
      | inl nc => ((Some nc, None), [EvDial address])
      | inr e =>
          let '(r, tr) := NewTCPConn_loop n' (S i) dials address None (Some e) in
          (r, EvDial address :: EvSleep WaitRetry :: EvSleep WaitRetry :: tr)
      end
  end.

Definition NewTCPConn (dials : nat → netConn + syserror) (address : string)
  : (option TCPConn * option error) * list Event :=
  let '((conn, err), tr) := NewTCPConn_loop MaxRetry 0 dials address None None in
  match conn with
  | None =>
      ((None,
        Some (fmt_Errorf "Could not connect to %s: %s"
                [ArgString address;
                 match err with Some e => ArgError (sysError e) | None => ArgNil end])),
       tr)
  | Some nc =>
      ((Some {| tc_endpoint := address; tc_conn := nc; tc_closed := false;
                bRx := 0; bTx := 0 |},
        sysError <$> err), tr)
  end.

(** ** TCPListener *)

Record TCPListener := {
  tl_listener : option netListener;
  tl_quit : chan;
  tl_listening : bool;
  tl_connType : ConnType
}.

Definition NewTCPListener : TCPListener :=
  {| tl_listener := None; tl_quit := ChanOpen; tl_listening := false;
     tl_connType := PlainTCP |}.

(** The bind loop of [listen] with [n] iterations left, the next being
    iteration [i]; [binds i] is the error of the [i]-th [net.Listen]. *)
Fixpoint TCPListener_bind_loop (n i : nat) (binds : nat → option syserror)
  : (option netListener + error) * list Event :=
  match n with
  | O => (inl None, [])
  | S n' =>
      match binds i with
      | None => (inl (Some ListenerOpen), [])
      | Some err =>
          if (i =? MaxRetry - 1)%nat then
            (inr (errors_New ("Error opening listener: " +:+ sys_Error err)), [])
          else
            let '(r, tr) := TCPListener_bind_loop n' (S i) binds in
            (r, EvSleep WaitRetry :: tr)
      end
  end.

(** [listen] up to its first call of [Accept], where it waits for an
    inbound connection or for [Stop]. *)
Definition TCPListener_listen (binds : nat → option syserror) (t : TCPListener)
  : Outcome (option error) * TCPListener * list Event :=
  let '(r, tr) := TCPListener_bind_loop MaxRetry 0 binds in
  match r with
  | inr err =>
      (Return (Some err),
       {| tl_listener := tl_listener t; tl_quit := ChanOpen; tl_listening := true;
          tl_connType := tl_connType t |}, tr)
  | inl ln =>
      let ln' := match ln with Some l => Some l | None => tl_listener t end in
      let t' := {| tl_listener := ln'; tl_quit := ChanOpen; tl_listening := true;
                   tl_connType := tl_connType t |} in
      match ln' with
      | None =>
          (Panics (runtime_error "invalid memory address or nil pointer dereference"),
           t', tr)
      | Some _ => (Blocks, t', tr)
      end
  end.

(** The polling loop of [Stop].  [acks] tells, for each [select] in turn,
    whether the accept loop's acknowledgement arrives within the poll
    interval. *)
Fixpoint TCPListener_Stop_loop (acks : list bool) (t : TCPListener)
  : Outcome (option error) * TCPListener :=
  let closed :=
    match tl_listener t with
    | None => (None, t)
    | Some l =>
        let '(err, l') := netListener_Close l in
        (err, {| tl_listener := Some l'; tl_quit := tl_quit t;
                 tl_listening := tl_listening t; tl_connType := tl_connType t |})
    end in
  match closed with
  | (Some err, t') => (Return (Some (sysError err)), t')
  | (None, t') =>
      match acks with
      | [] => (Blocks, t')
      | true :: _ => (Return None, t')
      | false :: acks' => TCPListener_Stop_loop acks' t'
      end
  end.

Definition TCPListener_Stop (acks : list bool) (t : TCPListener)
  : Outcome (option error) * TCPListener :=
  let listening := tl_listening t in
  if negb listening then (Return None, t)
  else
    match chan_close (tl_quit t) with
    | Panics v => (Panics v, t)
    | Blocks => (Blocks, t)
    | Return q =>
        TCPListener_Stop_loop acks
          {| tl_listener := tl_listener t; tl_quit := q;
             tl_listening := tl_listening t; tl_connType := tl_connType t |}
    end.

Definition TCPListener_IncomingType (t : TCPListener) : ConnType := tl_connType t.

(** ** TCPHost *)

Record TCPHost := { th_id : string; th_listener : TCPListener }.

Definition NewTCPHost (sid : string) : TCPHost :=
  {| th_id := sid; th_listener := NewTCPListener |}.

Definition TCPHost_Connect (dials : nat → netConn + syserror) (t : TCPHost) (a : Address)
  : (option TCPConn * option error) * list Event :=
  match ConnType_of a with
  | PlainTCP => NewTCPConn dials (NetworkAddress a)
  | _ =>
      ((None,
        Some (fmt_Errorf "TCPHost %s can't handle this type of connection: %s"
                [ArgString (th_id t); ArgConnType (ConnType_of a)])), [])
  end.

(** ** Runs of several calls *)

(** The packet [Send] builds around a body. *)
Definition packet_of (body : Body) : Packet :=
  {| MsgType := TypeFromData body; Msg := body; From := Address_zero |}.

(** [Send] called for each message in turn, up to the first call that
    does not return; the outcomes in call order. *)
Fixpoint LocalConn_Sends (w : World) (cc : LocalConn) (cx : context_Context)
    (msgs : list Body) : list (Outcome (option error)) * World :=
  match msgs with
  | [] => ([], w)
  | msg :: msgs' =>
      match LocalConn_Send w cc cx msg with
      | (Return err, w') =>
          let '(rs, w'') := LocalConn_Sends w' cc cx msgs' in
          (Return err :: rs, w'')
      | (r, w') => ([r], w')
      end
  end.

(** [n] successive calls of [Receive]; the results in call order. *)
Fixpoint LocalConn_Receives (n : nat) (w : World) (cc : LocalConn) (cx : context_Context)
  : list (Outcome (Packet * option error)) * World :=
  match n with
  | O => ([], w)
  | S n' =>
      let '(r, w') := LocalConn_Receive w cc cx in
      let '(rs, w'') := LocalConn_Receives n' w' cc cx in
      (r :: rs, w'')
  end.

(** ** Invariant of the registry *)

(** Every registered endpoint points to a queue of the heap and carries a
    uid below the counter, and no two endpoints share a queue. *)
Definition World_wf (w : World) : Prop :=
  (0 ≤ baseUid (ctx w))%Z
  ∧ (∀ e q, queues (ctx w) !! e = Some q →
            (q < length (heap w))%nat ∧ (0 ≤ uid e < baseUid (ctx w))%Z)
  ∧ (∀ e1 e2 q, queues (ctx w) !! e1 = Some q → queues (ctx w) !! e2 = Some q → e1 = e2).

(** * Properties *)

(** ** connQueue *)

Lemma connQueue_Pop_closed (c : connQueue) :
  isClosed c = true →
  connQueue_Pop c = (Return (EmptyApplicationPacket, Some ErrClosed), c).
Proof.
  intros Hc. unfold connQueue_Pop. rewrite Hc. by destruct (queue c).
Qed.

Lemma connQueue_Pops_closed (n : nat) (c : connQueue) :
  isClosed c = true →
  connQueue_Pops n c
  = (replicate n (Return (EmptyApplicationPacket, Some ErrClosed)), c).
Proof.
  intros Hc. induction n as [|n IH]; simpl; [done|].
  rewrite (connQueue_Pop_closed c Hc), IH. done.
Qed.

Lemma connQueue_Pops_open (q : list Packet) :
  connQueue_Pops (length q) {| queue := q; isClosed := false |}
  = ((λ p, Return (p, None)) <$> q, {| queue := []; isClosed := false |}).
Proof.
  induction q as [|p q IH]; simpl; [done|].
  rewrite IH. done.
Qed.

(** C2, as the code has it: once [Close] has been called every [Pop]
    returns the empty packet with [ErrClosed] and leaves the queue as it
    is, whether or not packets are pending; an open queue hands out its
    packets oldest first and then makes [Pop] wait. *)
Theorem connQueue_Pop_after_Close (c : connQueue) (n : nat) :
  connQueue_Pops n (connQueue_Close c)
  = (replicate n (Return (EmptyApplicationPacket, Some ErrClosed)), connQueue_Close c)
  ∧ connQueue_Pops (S (length (queue c))) {| queue := queue c; isClosed := false |}
    = (((λ p, Return (p, None)) <$> queue c) ++ [Blocks],
       {| queue := []; isClosed := false |}).
Proof.
  split.
  - by apply connQueue_Pops_closed.
  - generalize (queue c). intros q. induction q as [|p q IH]; [done|].
    change (connQueue_Pops (S (length (p :: q))) {| queue := p :: q; isClosed := false |})
      with (let '(rs, c'') := connQueue_Pops (S (length q)) {| queue := q; isClosed := false |}
            in (Return (p, None) :: rs, c'')).
    rewrite IH. done.
Qed.

(** ** LocalContext *)

(** C8: when [remote] is not registered as listening, [Connect] returns
    the not-listening error at once and the world is what it was: same
    uid counter, same queue map, same heap, no goroutine started. *)
Theorem LocalContext_Connect_not_listening (w : World) (local remote : Address) :
  listening (ctx w) !! remote = None →
  LocalContext_Connect w local remote
  = ((None, Some (fmt_Errorf "%s can't connect to %s: it's not listening"
                             [ArgAddress local; ArgAddress remote])), w).
Proof.
  intros Hl. unfold LocalContext_Connect. by rewrite Hl.
Qed.

Lemma LocalContext_Listening_lookup (ccc : LocalContext) (a : Address) (fn : Callback) :
  listening (LocalContext_Listening ccc a fn) !! a = Some fn.
Proof. apply lookup_insert_eq. Qed.

Lemma LocalContext_IsListening_true (ccc : LocalContext) (a : Address) :
  LocalContext_IsListening ccc a = true ↔ is_Some (listening ccc !! a).
Proof.
  unfold LocalContext_IsListening. destruct (listening ccc !! a); split.
  - eauto.
  - done.
  - done.
  - by intros [? ?].
Qed.

(** C4, on the code of the virtual transport: the check for an address
    that is already listening sits in [bind], when a listener is made,
    and [Listen] registers without it.  Two listeners made for the same
    free [Local] address are both bound without error; once the first
    listens, [bind] refuses every further listener for the address with
    the already-listening error, yet the second [Listen] registers and
    waits exactly as the first did: it reports no error, and its callback
    stands in the registry in place of the first one, of which nothing is
    left. *)
Theorem LocalListener_Listen_twice
    (ccc : LocalContext) (a : Address) (fn1 fn2 : Callback) :
  ConnType_of a = Local →
  listening ccc !! a = None →
  let '(l1, err1) := NewLocalListenerWithContext ccc a in
  let '(l2, err2) := NewLocalListenerWithContext ccc a in
  let '(r1, l1', ccc1) := LocalListener_Listen ccc l1 fn1 in
  let '(r2, l2', ccc2) := LocalListener_Listen ccc1 l2 fn2 in
  err1 = None ∧ err2 = None ∧ ll_addr l1 = a ∧ ll_addr l2 = a
  ∧ r1 = Blocks ∧ ll_listening l1' = true
  ∧ listening ccc1 !! a = Some fn1
  ∧ (∀ ll, LocalListener_bind ccc1 ll a
           = (Some (fmt_Errorf "%s is already listening: can't listen again"
                               [ArgAddress a]), ll))
  ∧ r2 = Blocks ∧ ll_listening l2' = true
  ∧ listening ccc2 !! a = Some fn2
  ∧ ccc2 = LocalContext_Listening ccc a fn2.
Proof.
  intros Ha Hl.
  unfold NewLocalListenerWithContext, LocalListener_bind, LocalContext_IsListening.
  rewrite bool_decide_eq_true_2 by done. rewrite Hl. cbn [negb].
  unfold LocalListener_Listen. cbn [ll_addr ll_listening ll_quit].
  do 6 (split; [done|]).
  split; [apply LocalContext_Listening_lookup|].
  split.
  { intros ll. by rewrite LocalContext_Listening_lookup. }
  do 2 (split; [done|]).
  split; [apply LocalContext_Listening_lookup|].
  unfold LocalContext_Listening. cbn [queues listening baseUid].
  by rewrite insert_insert_eq.
Qed.

(** C10: an address whose type is not [Local] is turned away before
    anything else happens: [LocalHost.Connect] returns its error with the
    world untouched and no attempt made, and [bind] returns the
    wrong-address-type error and leaves the listener as it was. *)
Theorem Local_rejects_other_types
    (w : World) (lh : LocalHost) (ccc : LocalContext) (ll : LocalListener) (a : Address) :
  ConnType_of a ≠ Local →
  LocalHost_Connect w lh a
  = ((None, Some (errors_New "Can't connect to non-Local address")), w, [])
  ∧ LocalListener_bind ccc ll a
    = (Some (errors_New "Wrong address type for local listener"), ll)
  ∧ NewLocalListenerWithContext ccc a
    = ({| ll_addr := Address_zero; ll_listening := false; ll_quit := ChanOpen |},
       Some (errors_New "Wrong address type for local listener")).
Proof.
  intros Ha.
  unfold LocalHost_Connect, NewLocalListenerWithContext, LocalListener_bind.
  rewrite bool_decide_eq_false_2 by done. done.
Qed.

(** ** LocalConn *)

(** C1, on the code of the virtual transport: a message sent on the
    connecting side of a fresh connection is the next packet the
    accepting side receives, with the type tag and the body as sent; its
    [From] is the zero address the packet literal of [Send] left there,
    not the sender's local address.  (A message of which [reflect] cannot
    take the body, the nil interface or a nil pointer, makes [Send] panic
    before anything is queued.) *)
Lemma LocalConn_Send_Receive
    (w : World) (a b : Address) (fn : Callback) (ctx1 ctx2 : context_Context) (msg : Body) :
  listening (ctx w) !! b = Some fn →
  ∃ outgoing incoming w1,
    LocalContext_Connect w a b = ((Some outgoing, None), w1)
    ∧ spawned w1 = spawned w ++ [(fn, incoming)]
    ∧ LocalConn_Local outgoing = a
    ∧ match sent_body msg with
      | Return body =>
          ∃ w2 w3,
            LocalConn_Send w1 outgoing ctx1 msg = (Return None, w2)
            ∧ LocalConn_Receive w2 incoming ctx2
              = (Return ({| MsgType := TypeFromData body;
                            Msg := body;
                            From := Address_zero |}, None), w3)
      | Panics v => LocalConn_Send w1 outgoing ctx1 msg = (Panics v, w1)
      | Blocks => False
      end.
Proof.
  intros Hl. unfold LocalContext_Connect. rewrite Hl. simpl.
  eexists _, _, _. split; [reflexivity|]. simpl.
  split; [reflexivity|]. split; [reflexivity|].
  destruct (sent_body msg) as [body|v|] eqn:Hb.
  - eexists _, _.
    unfold LocalConn_Send. rewrite Hb. unfold LocalContext_Send. simpl.
    rewrite lookup_insert_eq.
    split; [reflexivity|].
    unfold LocalConn_Receive. simpl.
    rewrite list_lookup_alter_eq.
    rewrite list_lookup_middle by done.
    simpl. reflexivity.
  - unfold LocalConn_Send. by rewrite Hb.
  - unfold sent_body in Hb. by destruct (reflect_ValueOf msg) as [|[?|]|].
Qed.

(** C5, as the code has it: [Receive] never consults its context.  With
    any context, cancelled or not, the virtual [Receive] is [Pop] on the
    connection's queue: on an open queue it hands out the oldest packet
    without error, or waits when there is none; and the socket [Receive]
    does what it does with the background context. *)
Theorem Receive_ignores_context
    (w : World) (cc : LocalConn) (c : connQueue) (cx : context_Context)
    (env : list ReadOutcome) (tc : TCPConn) :
  heap w !! connQueue_of cc = Some c →
  isClosed c = false →
  (LocalConn_Receive w cc cx).1
  = match queue c with
    | [] => Blocks
    | nm :: _ => Return (nm, None)
    end
  ∧ LocalConn_Receive w cc cx = LocalConn_Receive w cc context_Background
  ∧ TCPConn_Receive env tc cx = TCPConn_Receive env tc context_Background.
Proof.
  intros Hh Hc. split; [|done].
  unfold LocalConn_Receive, connQueue_Pop. rewrite Hh, Hc.
  by destruct (queue c).
Qed.

(** ** LocalHost *)

Lemma LocalHost_Connect_loop_not_listening
    (n : nat) (w : World) (own a : Address) (finalErr : option error) :
  listening (ctx w) !! a = None →
  LocalHost_Connect_loop n w own a finalErr
  = ((None, match n with O => finalErr | S _ => Some (not_listening_error own a) end),
     w, mjoin (replicate n [EvConnect own a; EvSleep WaitRetry])).
Proof.
  intros Hl. revert finalErr. induction n as [|n IH]; intros finalErr; [done|].
  cbn [LocalHost_Connect_loop]. unfold NewLocalConnWithContext.
  unfold LocalContext_Connect. rewrite Hl.
  rewrite IH. simpl. by destruct n.
Qed.

(** ** NewTCPConn *)

Lemma NewTCPConn_loop_unreachable
    (n i : nat) (dials : nat → netConn + syserror) (errs : nat → syserror)
    (address : string) (conn : option netConn) (err : option syserror) :
  (∀ j, dials j = inr (errs j)) →
  NewTCPConn_loop n i dials address conn err
  = ((match n with O => conn | S _ => None end,
      match n with O => err | S m => Some (errs (i + m)) end),
     mjoin (replicate n [EvDial address; EvSleep WaitRetry; EvSleep WaitRetry])).
Proof.
  intros Hd. revert i conn err. induction n as [|n IH]; intros i conn err; [done|].
  cbn [NewTCPConn_loop]. rewrite Hd, IH. simpl.
  destruct n; simpl; repeat f_equal; lia.
Qed.

(** C7, as the code has it.  Virtual transport: connecting to a [Local]
    address that is not listening makes [MaxRetryConnect] attempts, sleeps
    [WaitRetry] after each, leaves the world as it was and returns the
    error of the last attempt.  Socket transport: connecting to a
    [PlainTCP] address whose every dial fails makes [MaxRetry] dials,
    sleeps twice [WaitRetry] after each, and returns a new error made of
    the address and the error of the last dial. *)
Theorem Host_Connect_bounded_retry
    (w : World) (lh : LocalHost) (a : Address)
    (t : TCPHost) (dials : nat → netConn + syserror) (errs : nat → syserror)
    (r : Address) :
  (ConnType_of a = Local →
   listening (ctx w) !! a = None →
   (0 < MaxRetryConnect)%nat →
   LocalHost_Connect w lh a
   = ((None, Some (not_listening_error (lh_addr lh) a)), w,
      mjoin (replicate MaxRetryConnect [EvConnect (lh_addr lh) a; EvSleep WaitRetry])))
  ∧ (ConnType_of r = PlainTCP →
     (∀ j, dials j = inr (errs j)) →
     (0 < MaxRetry)%nat →
     TCPHost_Connect dials t r
     = ((None,
         Some (fmt_Errorf "Could not connect to %s: %s"
                 [ArgString (NetworkAddress r);
                  ArgError (sysError (errs (MaxRetry - 1)%nat))])),
        mjoin (replicate MaxRetry
                 [EvDial (NetworkAddress r); EvSleep WaitRetry; EvSleep WaitRetry]))).
Proof.
  split.
  - intros Ha Hl Hn. unfold LocalHost_Connect.
    rewrite bool_decide_eq_true_2 by done. simpl.
    rewrite (LocalHost_Connect_loop_not_listening _ _ _ _ _ Hl).
    destruct MaxRetryConnect; [lia|done].
  - intros Hr Hd Hn. unfold TCPHost_Connect, NewTCPConn. rewrite Hr.
    rewrite (NewTCPConn_loop_unreachable _ _ _ errs _ _ _ Hd).
    destruct MaxRetry as [|m]; [lia|]. simpl.
    by replace (m - 0)%nat with m by lia.
Qed.

(** ** The length prefix *)

Lemma Size_modulus_pos : (0 < Size_modulus)%Z.
Proof. unfold Size_modulus. apply Z.pow_pos_nonneg; lia. Qed.

Lemma to_Size_small (n : Z) : (0 ≤ n < Size_modulus)%Z → to_Size n = n.
Proof. intros H. unfold to_Size. by apply Z.mod_small. Qed.

(** ** TCPConn.receive *)

Lemma to_Size_nonneg (n : Z) : (0 ≤ to_Size n)%Z.
Proof.
  unfold to_Size. pose proof Size_modulus_pos.
  by apply Z.mod_pos_bound.
Qed.

(** The read loop never stops for want of fuel: any two amounts above the
    weight of the stream give the same run. *)
Lemma TCPConn_receive_loop_fuel (fuel : nat) :
  ∀ (fuel' : nat) (env : list ReadOutcome) (total read : Z) (buffer : list Byte.byte),
    (0 ≤ read)%Z →
    (stream_weight env < fuel)%nat →
    (stream_weight env < fuel')%nat →
    TCPConn_receive_loop fuel env total read buffer
    = TCPConn_receive_loop fuel' env total read buffer.
Proof.
  induction fuel as [|fuel IH]; intros fuel' env total read buffer Hr Hf Hf'; [lia|].
  destruct fuel' as [|fuel']; [lia|].
  cbn [TCPConn_receive_loop].
  destruct (Z.ltb_spec read total) as [Hlt|Hge]; simpl negb; cbv iota; [|done].
  destruct env as [|[bs|err] env]; [done| |done].
  cbv zeta. simpl in Hf, Hf'.
  apply IH; [apply to_Size_nonneg | |]; case_decide; simpl;
    rewrite ?length_drop; lia.
Qed.

(** ** TCPListener *)

Lemma TCPListener_Stop_loop_keeps (acks : list bool) (t t' : TCPListener)
    (r : Outcome (option error)) :
  TCPListener_Stop_loop acks t = (r, t') →
  tl_quit t' = tl_quit t ∧ tl_listening t' = tl_listening t.
Proof.
  revert t. induction acks as [|ack acks IH]; intros t; simpl;
    destruct (tl_listener t) as [[]|]; simpl.
  all: try (intros [= <- <-]; done).
  all: destruct ack; try (intros [= <- <-]; done).
  all: intros H; apply IH in H; simpl in H; done.
Qed.

(** C3, on the code: [Stop] closes the quit channel and never clears
    the [listening] flag, so once a call of [Stop] on a listening
    listener has returned, the next call closes the closed channel
    again and panics. *)
Theorem TCPListener_Stop_twice_panics
    (acks1 acks2 : list bool) (t t' : TCPListener) (r : option error) :
  tl_listening t = true →
  TCPListener_Stop acks1 t = (Return r, t') →
  TCPListener_Stop acks2 t'
  = (Panics (runtime_error "close of closed channel"), t').
Proof.
  intros Hl. unfold TCPListener_Stop at 1. rewrite Hl. simpl.
  destruct (tl_quit t); simpl; [|done].
  intros H. apply TCPListener_Stop_loop_keeps in H. simpl in H.
  destruct H as [Hq Hl']. unfold TCPListener_Stop. rewrite Hl', Hq. done.
Qed.

(** ** TCPConn.Receive *)

(** C9: [Receive] never panics, whatever the stream and the decoder do;
    in particular, when the decoder panics on the received buffer,
    [Receive] returns the empty packet and the generic receive error
    made from the panic value. *)
Theorem TCPConn_Receive_recovers (env : list ReadOutcome) (c : TCPConn) (cx : context_Context) :
  (∀ v, (TCPConn_Receive env c cx).1.1 ≠ Panics v)
  ∧ (∀ buff c' env' v,
       TCPConn_receive env c = (Return (buff, None), c', env') →
       Packet_UnmarshalBinary buff = Panics v →
       TCPConn_Receive env c cx
       = (Return (EmptyApplicationPacket,
                  Some (fmt_Errorf "Error Received message: %v" [ArgPanic v])),
          c', env')).
Proof.
  split.
  - intros v. unfold TCPConn_Receive.
    destruct (TCPConn_Receive_body env c) as [[[]]]; done.
  - intros buff c' env' v Hr Hu.
    unfold TCPConn_Receive, TCPConn_Receive_body. by rewrite Hr, Hu.
Qed.

(** ** TCPConn.send *)

Lemma TCPConn_send_loop_unfold (env : list WriteOutcome) (c : TCPConn)
    (packetSize sent : Z) (b : list Byte.byte) :
  TCPConn_send_loop env c packetSize sent b
  = if negb (sent <? packetSize)%Z then
      (Return None, TCPConn_addWrittenBytes c packetSize, env)
    else
      let length0 := to_Size (packetSize - sent) in
      let length1 := if (length0 >? maxChunkSize)%Z then maxChunkSize else length0 in
      if (length1 >? Z.of_nat (length b))%Z then
        (Panics (runtime_error "slice bounds out of range"), c, env)
      else
        match env with
        | [] => (Blocks, c, [])
        | WriteErr err :: env' => (Return (Some (handleError err)), c, env')
        | WriteOk :: env' =>
            let chunk := take (Z.to_nat length1) b in
            let n := Z.of_nat (length chunk) in
            let c' := TCPConn_with_conn c (netConn_accept (tc_conn c) chunk) in
            TCPConn_send_loop env' c' packetSize (to_Size (sent + n))
                              (drop (Z.to_nat n) b)
        end.
Proof. by destruct env. Qed.

(** The chunk loop writes slices of 1 to 1400 bytes that, in order, make
    up a prefix of the payload, the whole of it when the loop returns
    without error; it touches the counter only then. *)
Lemma TCPConn_send_loop_spec (env : list WriteOutcome) :
  ∀ (c : TCPConn) (packetSize sent : Z) (b : list Byte.byte)
    (r : Outcome (option error)) (c' : TCPConn) (env' : list WriteOutcome),
    (0 ≤ sent)%Z →
    (sent + Z.of_nat (length b) = packetSize)%Z →
    (packetSize < Size_modulus)%Z →
    TCPConn_send_loop env c packetSize sent b = (r, c', env') →
    ∃ chunks rest,
      nc_written (tc_conn c') = nc_written (tc_conn c) ++ chunks
      ∧ Forall (λ ch, 0 < length ch ≤ 1400)%nat chunks
      ∧ b = mjoin chunks ++ rest
      ∧ (∀ v, r ≠ Panics v)
      ∧ (if send_finished r
         then rest = [] ∧ bTx c' = uint64_add (bTx c) packetSize
         else rest ≠ [] ∧ bTx c' = bTx c).
Proof.
  induction env as [|o env IH]; intros c P sent b r c' env' H0 Hinv HP;
    rewrite TCPConn_send_loop_unfold; cbv zeta.
  all: destruct (Z.ltb_spec sent P) as [Hlt|Hge]; simpl negb; cbv iota.
  all: try (intros [= <- <- <-]; exists [], b; simpl;
            rewrite app_nil_r; repeat split; try done;
            destruct b; [done | simpl in Hinv; lia]).
  all: rewrite to_Size_small by lia.
  all: set (len1 := if (P - sent >? maxChunkSize)%Z then maxChunkSize else (P - sent)%Z).
  all: assert (0 < len1 ≤ 1400 ∧ len1 ≤ Z.of_nat (length b))%Z as Hlen
      by (unfold len1, maxChunkSize; destruct (Z.gtb_spec (P - sent) 1400); lia).
  all: destruct (Z.gtb_spec len1 (Z.of_nat (length b))) as [?|_]; [lia|].
  - intros [= <- <- <-]. exists [], b. simpl. rewrite app_nil_r.
    repeat split; try done. destruct b; [simpl in Hlen; lia | done].
  - destruct o as [|err].
    + assert (length (take (Z.to_nat len1) b) = Z.to_nat len1) as Htake
        by (rewrite length_take; lia).
      rewrite Htake, Z2Nat.id by lia.
      rewrite to_Size_small by lia.
      intros Hrun. apply IH in Hrun; [| lia | rewrite length_drop; lia | lia].
      destruct Hrun as (chunks & rest & Hw & Hall & Hb & Hnp & Hfin).
      exists (take (Z.to_nat len1) b :: chunks), rest.
      split; [|split; [|split; [|split]]].
      * rewrite Hw. simpl. by rewrite <- app_assoc.
      * constructor; [rewrite Htake; lia | done].
      * simpl. rewrite <- app_assoc, <- Hb. by rewrite take_drop.
      * done.
      * done.
    + intros [= <- <- <-]. exists [], b. simpl. rewrite app_nil_r.
      repeat split; try done. destruct b; [simpl in Hlen; lia | done].
Qed.

(** When the coming [k] calls of [Write] succeed and can take the rest of
    the payload, the loop runs to its end. *)
Lemma TCPConn_send_loop_completes (k : nat) :
  ∀ (tail : list WriteOutcome) (c : TCPConn) (packetSize sent : Z) (b : list Byte.byte),
    (0 ≤ sent)%Z →
    (sent + Z.of_nat (length b) = packetSize)%Z →
    (packetSize < Size_modulus)%Z →
    (length b ≤ 1400 * k)%nat →
    ∃ c' env',
      TCPConn_send_loop (replicate k WriteOk ++ tail) c packetSize sent b
      = (Return None, c', env').
Proof.
  induction k as [|k IH]; intros tail c P sent b H0 Hinv HP Hk;
    rewrite TCPConn_send_loop_unfold; cbv zeta.
  all: destruct (Z.ltb_spec sent P) as [Hlt|Hge]; simpl negb; cbv iota; eauto.
  - lia.
  - rewrite to_Size_small by lia.
    set (len1 := if (P - sent >? maxChunkSize)%Z then maxChunkSize else (P - sent)%Z).
    assert (0 < len1 ≤ 1400 ∧ len1 ≤ Z.of_nat (length b)
            ∧ (Z.of_nat (length b) - len1 ≤ 1400 * Z.of_nat k))%Z as Hlen
      by (unfold len1, maxChunkSize; destruct (Z.gtb_spec (P - sent) 1400); lia).
    destruct (Z.gtb_spec len1 (Z.of_nat (length b))) as [?|_]; [lia|].
    simpl replicate. cbn [app].
    assert (length (take (Z.to_nat len1) b) = Z.to_nat len1) as Htake
      by (rewrite length_take; lia).
    rewrite Htake, Z2Nat.id by lia.
    rewrite to_Size_small by lia.
    apply IH; [lia | rewrite length_drop; lia | lia | rewrite length_drop; lia].
Qed.

Lemma chunks_needed_enough (n : nat) : (n ≤ 1400 * chunks_needed n)%nat.
Proof.
  unfold chunks_needed.
  pose proof (Nat.div_mod_eq (n + 1399) 1400) as Hd.
  pose proof (Nat.mod_upper_bound (n + 1399) 1400) as Hm. lia.
Qed.

(** C6, as the code has it: for a payload [b] whose length fits the
    length prefix, [send] returns without error as soon as the write of
    the prefix and those of the chunks succeed.  Whatever the socket
    does afterwards, once the first write has succeeded what [send] has
    written is the prefix followed by slices of 1 to 1400 bytes that make
    up, in order, a prefix of [b]: all of [b] when [send] returns without
    error, and not all of it in every other case; the counter goes up
    once, by the length of [b], when the loop is over, and stays as it
    was in every other case.  When the first write does not succeed,
    [send] does not return without error and leaves the connection as
    it was. *)
Theorem TCPConn_send_chunked (c : TCPConn) (b : list Byte.byte) :
  (Z.of_nat (length b) < Size_modulus)%Z →
  (∀ tail, ∃ c' env',
      TCPConn_send (replicate (S (chunks_needed (length b))) WriteOk ++ tail) c b
      = (Return None, c', env'))
  ∧ (∀ env r c' env',
       TCPConn_send env c b = (r, c', env') →
       match env with
       | WriteOk :: _ =>
           ∃ chunks rest,
             nc_written (tc_conn c')
             = nc_written (tc_conn c) ++ Size_encode (Z.of_nat (length b)) :: chunks
             ∧ Forall (λ ch, 0 < length ch ≤ 1400)%nat chunks
             ∧ b = mjoin chunks ++ rest
             ∧ (if send_finished r
                then rest = [] ∧ bTx c' = uint64_add (bTx c) (Z.of_nat (length b))
                else rest ≠ [] ∧ bTx c' = bTx c)
       | _ => send_finished r = false ∧ c' = c
       end).
Proof.
  intros Hfit.
  assert (to_Size (Z.of_nat (length b)) = Z.of_nat (length b)) as HP
    by (apply to_Size_small; lia).
  split.
  - intros tail. unfold TCPConn_send. rewrite HP. simpl replicate. cbn [app].
    apply TCPConn_send_loop_completes; [lia | lia | lia |].
    apply chunks_needed_enough.
  - intros env r c' env'. unfold TCPConn_send. rewrite HP.
    destruct env as [|[|err] env].
    + by intros [= <- <- <-].
    + intros Hrun. apply TCPConn_send_loop_spec in Hrun; [| lia | lia | lia].
      destruct Hrun as (chunks & rest & Hw & Hall & Hb & _ & Hfin).
      exists chunks, rest.
      simpl in Hw. rewrite <- app_assoc in Hw.
      split; [done|]. split; [done|]. by split.
    + by intros [= <- <- <-].
Qed.

(** * Further properties *)

(** ** connQueue: order and closing *)

Lemma connQueue_Pushes_open (q : list Packet) (ps : list Packet) :
  foldl connQueue_Push {| queue := q; isClosed := false |} ps
  = {| queue := q ++ ps; isClosed := false |}.
Proof.
  revert q. induction ps as [|p ps IH]; intros q; simpl.
  - by rewrite app_nil_r.
  - unfold connQueue_Push at 2. simpl. rewrite IH. by rewrite <- app_assoc.
Qed.

Lemma connQueue_Pushes_closed (c : connQueue) (ps : list Packet) :
  isClosed c = true → foldl connQueue_Push c ps = c.
Proof.
  intros Hc. induction ps as [|p ps IH]; simpl; [done|].
  unfold connQueue_Push at 2. by rewrite Hc.
Qed.

(** X1: packets pushed on an open queue come out of [Pop] in the order
    they were pushed, after the packets that were already pending, and
    then [Pop] waits; packets pushed after [Close] are dropped: the queue
    stays what it was at the time of closing. *)
Theorem connQueue_Push_Pop_fifo (q ps : list Packet) :
  connQueue_Pops (S (length (q ++ ps)))
                 (foldl connQueue_Push {| queue := q; isClosed := false |} ps)
  = (((λ p, Return (p, None)) <$> (q ++ ps)) ++ [Blocks],
     {| queue := []; isClosed := false |})
  ∧ foldl connQueue_Push (connQueue_Close {| queue := q; isClosed := false |}) ps
    = connQueue_Close {| queue := q; isClosed := false |}.
Proof.
  split.
  - rewrite connQueue_Pushes_open.
    generalize (q ++ ps). intros l. induction l as [|p l IH]; [done|].
    change (connQueue_Pops (S (length (p :: l))) {| queue := p :: l; isClosed := false |})
      with (let '(rs, c'') := connQueue_Pops (S (length l)) {| queue := l; isClosed := false |}
            in (Return (p, None) :: rs, c'')).
    by rewrite IH.
  - by apply connQueue_Pushes_closed.
Qed.

(** ** LocalConn: delivery in order *)

Lemma World_eta (w : World) :
  {| ctx := ctx w; heap := heap w; spawned := spawned w |} = w.
Proof. by destruct w. Qed.

(** [Send] with a body to send, to an endpoint that is registered. *)
Lemma LocalConn_Send_registered
    (w : World) (cc : LocalConn) (cx : context_Context) (q : nat) (msg body : Body) :
  sent_body msg = Return body →
  queues (ctx w) !! remote cc = Some q →
  LocalConn_Send w cc cx msg
  = (Return None,
     {| ctx := ctx w;
        heap := alter (λ c, connQueue_Push c (packet_of body)) q (heap w);
        spawned := spawned w |}).
Proof.
  intros Hb Hq. unfold LocalConn_Send, LocalContext_Send. by rewrite Hb, Hq.
Qed.


Lemma LocalConn_Sends_registered
    (cc : LocalConn) (cx : context_Context) (q : nat) (msgs bodies : list Body) :
  Forall2 (λ msg body, sent_body msg = Return body) msgs bodies →
  ∀ w : World,
    queues (ctx w) !! remote cc = Some q →
    LocalConn_Sends w cc cx msgs
    = (replicate (length msgs) (Return None),
       {| ctx := ctx w;
          heap := alter (λ c, foldl connQueue_Push c (packet_of <$> bodies)) q (heap w);
          spawned := spawned w |}).
Proof.
  induction 1 as [|msg body msgs bodies Hb _ IH]; intros w Hq.
  - simpl. rewrite list_alter_id by done. by rewrite World_eta.
  - cbn [LocalConn_Sends]. rewrite (LocalConn_Send_registered w cc cx q msg body Hb Hq).
    rewrite IH by done. simpl. by rewrite list_alter_alter_eq.
Qed.

Lemma LocalConn_Receives_open (cc : LocalConn) (cx : context_Context) (q : list Packet) :
  ∀ w : World,
    heap w !! connQueue_of cc = Some {| queue := q; isClosed := false |} →
    LocalConn_Receives (S (length q)) w cc cx
    = (((λ p, Return (p, None)) <$> q) ++ [Blocks],
       {| ctx := ctx w;
          heap := <[connQueue_of cc := {| queue := []; isClosed := false |}]> (heap w);
          spawned := spawned w |}).
Proof.
  induction q as [|p q IH]; intros w Hh.
  - cbn [LocalConn_Receives length]. unfold LocalConn_Receive. rewrite Hh. simpl.
    done.
  - change (LocalConn_Receives (S (length (p :: q))) w cc cx)
      with (let '(r, w') := LocalConn_Receive w cc cx in
            let '(rs, w'') := LocalConn_Receives (S (length q)) w' cc cx in
            (r :: rs, w'')).
    unfold LocalConn_Receive at 1. rewrite Hh.
    unfold connQueue_Pop. cbn [queue isClosed].
    rewrite IH; cbn [ctx heap spawned].
    + by rewrite list_insert_insert_eq.
    + apply list_lookup_insert_eq. by eapply lookup_lt_Some.
Qed.


(** ** LocalContext.Connect: the pair it builds *)

Lemma uint64_succ_ne (n : Z) : uint64_add n 1 ≠ n.
Proof.
  unfold uint64_add, uint64_modulus.
  pose proof (Z.mod_pos_bound (n + 1) (2 ^ 64)) as Hb.
  intros Heq.
  destruct (decide (0 ≤ n < 2 ^ 64 - 1)%Z) as [Hin|Hout].
  - rewrite Z.mod_small in Heq by lia. lia.
  - destruct (decide (n = 2 ^ 64 - 1)%Z) as [->|Hne].
    + by vm_compute in Heq.
    + lia.
Qed.

(** What a successful [Connect] leaves behind. *)
Lemma LocalContext_Connect_wiring (w : World) (a b : Address) (fn : Callback) :
  listening (ctx w) !! b = Some fn →
  let out := Endpoint a (baseUid (ctx w)) in
  let inc := Endpoint b (uint64_add (baseUid (ctx w)) 1) in
  let outgoing := {| local := out; remote := inc; connQueue_of := length (heap w) |} in
  let incoming := {| local := inc; remote := out; connQueue_of := S (length (heap w)) |} in
  LocalContext_Connect w a b
  = ((Some outgoing, None),
     {| ctx := {| queues := <[inc := S (length (heap w))]>
                              (<[out := length (heap w)]> (queues (ctx w)));
                  listening := listening (ctx w);
                  baseUid := uint64_add (uint64_add (baseUid (ctx w)) 1) 1 |};
        heap := heap w ++ [newConnQueue; newConnQueue];
        spawned := spawned w ++ [(fn, incoming)] |})
  ∧ out ≠ inc.
Proof.
  intros Hl. simpl. split.
  - unfold LocalContext_Connect. rewrite Hl. simpl.
    rewrite length_app. simpl. rewrite Nat.add_1_r.
    by rewrite <- app_assoc.
  - intros [= _ Hu]. symmetry in Hu. by apply uint64_succ_ne in Hu.
Qed.

(** X3: a successful [Connect] starts the accept callback of the remote
    address on the accepting end and returns the connecting end; the two
    ends name each other's addresses, and they form a full-duplex pair:
    whatever bodies each end sends (messages of which [reflect] can take
    the body), the other end receives, in order, and then waits. *)
Theorem LocalContext_Connect_full_duplex
    (w : World) (a b : Address) (fn : Callback) (cx : context_Context)
    (msgsAB bodiesAB msgsBA bodiesBA : list Body) :
  listening (ctx w) !! b = Some fn →
  Forall2 (λ msg body, sent_body msg = Return body) msgsAB bodiesAB →
  Forall2 (λ msg body, sent_body msg = Return body) msgsBA bodiesBA →
  ∃ outgoing incoming w1,
    LocalContext_Connect w a b = ((Some outgoing, None), w1)
    ∧ spawned w1 = spawned w ++ [(fn, incoming)]
    ∧ LocalConn_Local outgoing = a ∧ LocalConn_Remote outgoing = b
    ∧ LocalConn_Local incoming = b ∧ LocalConn_Remote incoming = a
    ∧ let '(outsAB, w2) := LocalConn_Sends w1 outgoing cx msgsAB in
      let '(outsBA, w3) := LocalConn_Sends w2 incoming cx msgsBA in
      outsAB = replicate (length msgsAB) (Return None)
      ∧ outsBA = replicate (length msgsBA) (Return None)
      ∧ (LocalConn_Receives (S (length msgsAB)) w3 incoming cx).1
        = ((λ p, Return (p, None)) <$> (packet_of <$> bodiesAB)) ++ [Blocks]
      ∧ (LocalConn_Receives (S (length msgsBA)) w3 outgoing cx).1
        = ((λ p, Return (p, None)) <$> (packet_of <$> bodiesBA)) ++ [Blocks].
Proof.
  intros Hl HAB HBA.
  destruct (LocalContext_Connect_wiring w a b fn Hl) as [Hc Hne].
  cbv zeta in Hc. eexists _, _, _. split; [exact Hc|].
  split; [done|]. do 4 (split; [done|]).
  erewrite (LocalConn_Sends_registered _ cx (S (length (heap w))) msgsAB bodiesAB HAB);
    [|cbn [ctx queues remote]; apply lookup_insert_eq].
  erewrite (LocalConn_Sends_registered _ cx (length (heap w)) msgsBA bodiesBA HBA);
    [|cbn [ctx queues remote]; rewrite lookup_insert_ne by (by intros ?);
      apply lookup_insert_eq].
  split; [done|]. split; [done|].
  cbn [ctx heap spawned].
  assert ((heap w ++ [newConnQueue; newConnQueue]) !! length (heap w)
          = Some newConnQueue) as H0 by (by apply list_lookup_middle).
  assert ((heap w ++ [newConnQueue; newConnQueue]) !! S (length (heap w))
          = Some newConnQueue) as H1.
  { rewrite lookup_app_r by lia. by replace (S (length (heap w)) - length (heap w))%nat
      with 1%nat by lia. }
  split.
  - rewrite (Forall2_length _ _ _ HAB), <- (length_fmap packet_of bodiesAB).
    erewrite LocalConn_Receives_open; [done|].
    cbn [heap connQueue_of].
    rewrite list_lookup_alter_ne by lia.
    rewrite list_lookup_alter_eq, H1. simpl.
    unfold newConnQueue. by rewrite connQueue_Pushes_open.
  - rewrite (Forall2_length _ _ _ HBA), <- (length_fmap packet_of bodiesBA).
    erewrite LocalConn_Receives_open; [done|].
    cbn [heap connQueue_of].
    rewrite list_lookup_alter_eq.
    rewrite list_lookup_alter_ne by lia. rewrite H0. simpl.
    unfold newConnQueue. by rewrite connQueue_Pushes_open.
Qed.

(** ** Closing a virtual connection *)



(** What [LocalConn.Close] does to the world when the peer's endpoint is
    still registered. *)
Lemma LocalConn_Close_registered (w : World) (cc : LocalConn) (q : nat) :
  local cc ≠ remote cc →
  queues (ctx w) !! remote cc = Some q →
  LocalConn_Close w cc
  = (None,
     {| ctx := {| queues := delete (remote cc) (delete (local cc) (queues (ctx w)));
                  listening := listening (ctx w);
                  baseUid := baseUid (ctx w) |};
        heap := alter connQueue_Close q (alter connQueue_Close (connQueue_of cc) (heap w));
        spawned := spawned w |}).
Proof.
  intros Hne Hq. unfold LocalConn_Close, LocalContext_Close. cbn [ctx heap spawned].
  rewrite lookup_delete_ne by done. by rewrite Hq.
Qed.


(** X5: [LocalConn.Close] may be called again: the second call returns no
    error and leaves the world as the first call left it. *)
Theorem LocalConn_Close_idempotent (w : World) (cc : LocalConn) :
  (LocalConn_Close w cc).1 = None
  ∧ LocalConn_Close (LocalConn_Close w cc).2 cc = (None, (LocalConn_Close w cc).2).
Proof.
  split; [done|].
  unfold LocalConn_Close, LocalContext_Close. cbn [fst snd ctx heap spawned].
  destruct (delete (local cc) (queues (ctx w)) !! remote cc) as [q|] eqn:Hq;
    cbn [ctx heap spawned queues listening baseUid].
  - rewrite lookup_delete_ne
      by (intros Heq; rewrite Heq, lookup_delete_eq in Hq; done).
    rewrite lookup_delete_eq.
    f_equal. f_equal.
    + f_equal.
      rewrite (delete_delete (delete (local cc) (queues (ctx w))) (local cc) (remote cc)).
      by rewrite delete_delete_eq.
    + apply list_eq. intros i. rewrite !list_lookup_alter.
      repeat case_decide; simplify_eq; try done; by destruct (heap w !! _).
  - rewrite delete_delete_eq, Hq.
    f_equal. f_equal. apply list_eq. intros i. rewrite !list_lookup_alter.
    repeat case_decide; simplify_eq; try done; by destruct (heap w !! _).
Qed.

(** ** The registry's invariant *)

Lemma World_wf_NewWorld : World_wf NewWorld.
Proof.
  split; [done|]. split.
  - intros e q H. cbn in H. by rewrite lookup_empty in H.
  - intros e1 e2 q H. cbn in H. by rewrite lookup_empty in H.
Qed.

Lemma World_wf_same_ctx (w w' : World) :
  ctx w' = ctx w → length (heap w') = length (heap w) → World_wf w → World_wf w'.
Proof.
  intros Hc Hh (Hb & Hq & Hi). unfold World_wf. rewrite Hc, Hh. done.
Qed.

Lemma World_wf_Connect (w : World) (a b : Address) :
  World_wf w →
  (baseUid (ctx w) + 2 < uint64_modulus)%Z →
  World_wf (LocalContext_Connect w a b).2.
Proof.
  intros (Hb & Hq & Hi) Hw.
  destruct (listening (ctx w) !! b) as [fn|] eqn:Hl.
  - destruct (LocalContext_Connect_wiring w a b fn Hl) as [-> Hne].
    cbn [snd].
    assert (uint64_add (baseUid (ctx w)) 1 = baseUid (ctx w) + 1)%Z as H1
      by (unfold uint64_add; apply Z.mod_small; lia).
    assert (uint64_add (baseUid (ctx w) + 1) 1 = baseUid (ctx w) + 2)%Z as H2
      by (unfold uint64_add; rewrite Z.mod_small by lia; lia).
    rewrite H1 in *. rewrite H2.
    split; [cbn; lia|]. split.
    + intros e q. cbn [ctx queues heap baseUid]. rewrite length_app. cbn [length].
      rewrite !lookup_insert. repeat case_decide; simplify_eq;
        intros Hx; simplify_eq; cbn; try lia.
      apply Hq in Hx. lia.
    + intros e1 e2 q. cbn [ctx queues].
      rewrite !lookup_insert. repeat case_decide; simplify_eq; try done;
        intros Hx Hy; simplify_eq; try done.
      all: try (apply Hq in Hx; lia).
      all: try (apply Hq in Hy; lia).
      all: try lia.
      by eapply Hi.
  - unfold LocalContext_Connect. rewrite Hl. done.
Qed.

Lemma World_wf_Send (w : World) (cc : LocalConn) (cx : context_Context) (msg : Body) :
  World_wf w → World_wf (LocalConn_Send w cc cx msg).2.
Proof.
  intros Hwf. unfold LocalConn_Send, LocalContext_Send.
  destruct (sent_body msg) as [body| |]; [|done|done].
  destruct (queues (ctx w) !! remote cc); [|done].
  apply (World_wf_same_ctx w); [done | | done]. cbn. by rewrite length_alter.
Qed.

Lemma World_wf_Receive (w : World) (cc : LocalConn) (cx : context_Context) :
  World_wf w → World_wf (LocalConn_Receive w cc cx).2.
Proof.
  intros Hwf. unfold LocalConn_Receive.
  destruct (heap w !! connQueue_of cc) as [c|]; [|done].
  destruct (connQueue_Pop c) as [r c'].
  apply (World_wf_same_ctx w); [done | | done]. cbn. by rewrite length_insert.
Qed.

Lemma World_wf_Close (w : World) (cc : LocalConn) :
  World_wf w → World_wf (LocalConn_Close w cc).2.
Proof.
  intros (Hb & Hq & Hi). unfold LocalConn_Close, LocalContext_Close.
  cbn [snd ctx heap spawned].
  destruct (delete (local cc) (queues (ctx w)) !! remote cc) as [q|];
    (split; [done|]; split); cbn [ctx queues heap baseUid];
    rewrite ?length_alter.
  - intros e q0 H. apply lookup_delete_Some in H as [_ H].
    apply lookup_delete_Some in H as [_ H]. by apply Hq.
  - intros e1 e2 q0 H H'.
    apply lookup_delete_Some in H as [_ H]. apply lookup_delete_Some in H as [_ H].
    apply lookup_delete_Some in H' as [_ H']. apply lookup_delete_Some in H' as [_ H'].
    by eapply Hi.
  - intros e q0 H. apply lookup_delete_Some in H as [_ H]. by apply Hq.
  - intros e1 e2 q0 H H'.
    apply lookup_delete_Some in H as [_ H]. apply lookup_delete_Some in H' as [_ H'].
    by eapply Hi.
Qed.

(** X6: the registry keeps its invariant.  When every registered endpoint
    points into the heap of queues with a uid below the counter and no
    two endpoints share a queue, the same holds after [Connect] (as long
    as the counter does not wrap around), after [Send], after [Receive]
    and after [Close]. *)
Theorem World_wf_preserved (w : World) :
  World_wf w →
  (∀ a b, (baseUid (ctx w) + 2 < uint64_modulus)%Z →
          World_wf (LocalContext_Connect w a b).2)
  ∧ (∀ cc cx msg, World_wf (LocalConn_Send w cc cx msg).2)
  ∧ (∀ cc cx, World_wf (LocalConn_Receive w cc cx).2)
  ∧ (∀ cc, World_wf (LocalConn_Close w cc).2).
Proof.
  intros Hwf. split; [|split; [|split]].
  - intros a b. by apply World_wf_Connect.
  - intros cc cx msg. by apply World_wf_Send.
  - intros cc cx. by apply World_wf_Receive.
  - intros cc. by apply World_wf_Close.
Qed.

(** X7: connections do not disturb each other.  In a world that satisfies
    the invariant, a [Send] changes no queue but that of the endpoint it
    addresses, and the [Close] of a registered connection leaves every
    endpoint other than its two registered, with its queue untouched. *)
Theorem LocalConn_isolated
    (w : World) (cc : LocalConn) (cx : context_Context) (msg : Body)
    (e : endpoint) (q : nat) :
  World_wf w →
  queues (ctx w) !! e = Some q →
  e ≠ remote cc →
  (queues (ctx (LocalConn_Send w cc cx msg).2) !! e = Some q
   ∧ heap (LocalConn_Send w cc cx msg).2 !! q = heap w !! q)
  ∧ (e ≠ local cc →
     queues (ctx w) !! local cc = Some (connQueue_of cc) →
     queues (ctx (LocalConn_Close w cc).2) !! e = Some q
     ∧ heap (LocalConn_Close w cc).2 !! q = heap w !! q).
Proof.
  intros (Hb & Hq & Hi) He Hne. split.
  - unfold LocalConn_Send, LocalContext_Send.
    destruct (sent_body msg) as [body| |]; [|done|done].
    destruct (queues (ctx w) !! remote cc) as [q'|] eqn:Hr; [|done].
    cbn [snd ctx heap]. split; [done|].
    apply list_lookup_alter_ne. intros ->. apply Hne. by eapply Hi.
  - intros Hnl Hown. unfold LocalConn_Close, LocalContext_Close.
    cbn [snd ctx heap spawned].
    assert (connQueue_of cc ≠ q) as Hp by (intros <-; apply Hnl; by eapply Hi).
    destruct (delete (local cc) (queues (ctx w)) !! remote cc) as [q'|] eqn:Hr;
      cbn [ctx queues heap].
    + apply lookup_delete_Some in Hr as [_ Hr].
      assert (q' ≠ q) as Hp' by (intros ->; apply Hne; by eapply Hi).
      rewrite !lookup_delete_ne by done.
      by rewrite !list_lookup_alter_ne by done.
    + rewrite lookup_delete_ne by done.
      by rewrite list_lookup_alter_ne by done.
Qed.

(** X8: opening and closing a connection leaves the queue map as it was.
    In a world that satisfies the invariant, [Connect] registers two new
    endpoints, and [Close] on either end of the new connection removes
    both again. *)
Theorem LocalContext_Connect_Close_restores
    (w : World) (a b : Address) (fn : Callback) :
  World_wf w →
  (baseUid (ctx w) + 1 < uint64_modulus)%Z →
  listening (ctx w) !! b = Some fn →
  ∃ outgoing incoming w1,
    LocalContext_Connect w a b = ((Some outgoing, None), w1)
    ∧ spawned w1 = spawned w ++ [(fn, incoming)]
    ∧ LocalContext_Len (ctx w1) = (LocalContext_Len (ctx w) + 2)%nat
    ∧ queues (ctx (LocalConn_Close w1 outgoing).2) = queues (ctx w)
    ∧ queues (ctx (LocalConn_Close w1 incoming).2) = queues (ctx w).
Proof.
  intros (Hb & Hq & Hi) Hw Hl.
  destruct (LocalContext_Connect_wiring w a b fn Hl) as [Hc Hne].
  cbv zeta in Hc, Hne. eexists _, _, _. split; [exact Hc|]. split; [done|].
  assert (uint64_add (baseUid (ctx w)) 1 = baseUid (ctx w) + 1)%Z as H1
    by (unfold uint64_add; apply Z.mod_small; lia).
  rewrite H1 in *.
  assert (queues (ctx w) !! Endpoint a (baseUid (ctx w)) = None) as Hout.
  { destruct (queues (ctx w) !! _) as [q|] eqn:Hx; [|done].
    apply Hq in Hx. cbn in Hx. lia. }
  assert (queues (ctx w) !! Endpoint b (baseUid (ctx w) + 1) = None) as Hinc.
  { destruct (queues (ctx w) !! Endpoint b (baseUid (ctx w) + 1)) as [q|] eqn:Hx; [|done].
    apply Hq in Hx. cbn in Hx. lia. }
  split; [|split].
  - unfold LocalContext_Len. cbn [ctx queues].
    rewrite map_size_insert_None by (by rewrite lookup_insert_ne).
    rewrite map_size_insert_None by done. lia.
  - erewrite LocalConn_Close_registered;
      [| done | cbn [ctx queues remote]; apply lookup_insert_eq].
    cbn [snd ctx queues local remote].
    apply map_eq. intros e. rewrite !lookup_delete.
    repeat case_decide; simplify_eq; rewrite ?lookup_insert_ne by done;
      by rewrite ?Hout, ?Hinc.
  - erewrite LocalConn_Close_registered;
      [| done | cbn [ctx queues remote]; rewrite lookup_insert_ne by done;
                apply lookup_insert_eq].
    cbn [snd ctx queues local remote].
    apply map_eq. intros e. rewrite !lookup_delete.
    repeat case_decide; simplify_eq; rewrite ?lookup_insert_ne by done;
      by rewrite ?Hout, ?Hinc.
Qed.


(** ** LocalListener and LocalHost *)

(** X9: the life of a virtual listener.  A listener bound to a [Local]
    address that nobody listens on gets that address; [Listen] registers
    its callback there, so that a [Connect] to the address starts that
    callback; [Stop] then takes the address out of the registry without
    touching the others, and may be repeated: every further [Stop]
    returns no error, never panics and changes nothing. *)
Theorem LocalListener_lifecycle
    (w : World) (a own : Address) (fn : Callback) :
  ConnType_of a = Local →
  listening (ctx w) !! a = None →
  let '(l0, err0) := NewLocalListenerWithContext (ctx w) a in
  let '(_, l1, ccc1) := LocalListener_Listen (ctx w) l0 fn in
  let w1 := {| ctx := ccc1; heap := heap w; spawned := spawned w |} in
  let '(r2, l2, ccc2) := LocalListener_Stop ccc1 l1 in
  err0 = None ∧ ll_addr l0 = a
  ∧ LocalContext_IsListening ccc1 a = true ∧ ll_listening l1 = true
  ∧ (∃ outgoing incoming w2,
        LocalContext_Connect w1 own a = ((Some outgoing, None), w2)
        ∧ spawned w2 = spawned w ++ [(fn, incoming)])
  ∧ r2 = Return None ∧ ll_listening l2 = false
  ∧ LocalContext_IsListening ccc2 a = false
  ∧ (∀ b, b ≠ a → listening ccc2 !! b = listening (ctx w) !! b)
  ∧ LocalContext_Connect {| ctx := ccc2; heap := heap w; spawned := spawned w |} own a
    = ((None, Some (not_listening_error own a)),
       {| ctx := ccc2; heap := heap w; spawned := spawned w |})
  ∧ LocalListener_Stop ccc2 l2 = (Return None, l2, ccc2).
Proof.
  intros Ha Hl.
  unfold NewLocalListenerWithContext, LocalListener_bind, LocalContext_IsListening.
  rewrite bool_decide_eq_true_2 by done. rewrite Hl. cbn [negb].
  unfold LocalListener_Listen, LocalListener_Stop. cbn [ll_addr ll_listening ll_quit].
  cbn [chan_close].
  split; [done|]. split; [done|].
  split; [cbn; by rewrite lookup_insert_eq|]. split; [done|].
  split.
  { destruct (LocalContext_Connect_wiring
                {| ctx := LocalContext_Listening (ctx w) a fn; heap := heap w;
                   spawned := spawned w |} own a fn) as [Hc _].
    - cbn. apply lookup_insert_eq.
    - cbv zeta in Hc. eexists _, _, _. split; [exact Hc|]. done. }
  split; [done|]. split; [done|].
  split; [cbn; by rewrite lookup_delete_eq|].
  split.
  { intros b Hb. cbn. rewrite lookup_delete_ne by done.
    by rewrite lookup_insert_ne by done. }
  split.
  { unfold LocalContext_Connect. cbn [ctx listening LocalContext_StopListening].
    by rewrite lookup_delete_eq. }
  unfold LocalContext_StopListening. cbn [queues listening baseUid].
  by rewrite delete_delete_eq.
Qed.

(** X10: [LocalHost.Connect] to a [Local] address that is listening
    succeeds at the first attempt: it is one call of [Connect] from the
    host's own address, with no sleep. *)
Theorem LocalHost_Connect_listening
    (w : World) (lh : LocalHost) (a : Address) (fn : Callback) :
  ConnType_of a = Local →
  listening (ctx w) !! a = Some fn →
  (0 < MaxRetryConnect)%nat →
  LocalHost_Connect w lh a
  = (LocalContext_Connect w (lh_addr lh) a, [EvConnect (lh_addr lh) a])
  ∧ ∃ c w', LocalContext_Connect w (lh_addr lh) a = ((Some c, None), w')
            ∧ LocalConn_Local c = lh_addr lh ∧ LocalConn_Remote c = a.
Proof.
  intros Ha Hl Hn.
  destruct (LocalContext_Connect_wiring w (lh_addr lh) a fn Hl) as [Hc _].
  cbv zeta in Hc. split; [|by eexists _, _].
  unfold LocalHost_Connect. rewrite bool_decide_eq_true_2 by done. cbn [negb].
  destruct MaxRetryConnect as [|n]; [lia|].
  cbn [LocalHost_Connect_loop]. unfold NewLocalConnWithContext. by rewrite Hc.
Qed.


(** ** handleError *)

Lemma String_prefix_spec (p s : string) :
  String.prefix p s = true ↔ ∃ post, s = p +:+ post.
Proof.
  revert s. induction p as [|a p IH]; intros s.
  - destruct s; simpl; split; eauto.
  - destruct s as [|b s]; simpl.
    + split; [done|]. by intros [post ?].
    + destruct (Ascii.ascii_dec a b) as [->|Hne].
      * rewrite IH. split; intros [post Hp]; exists post; [by rewrite Hp|].
        by injection Hp.
      * split; [done|]. intros [post Hp]. injection Hp as <- _. done.
Qed.

Lemma strings_Contains_spec (s substr : string) :
  strings_Contains s substr = true ↔ ∃ pre post, s = pre +:+ substr +:+ post.
Proof.
  induction s as [|a s IH]; cbn [strings_Contains].
  - destruct (String.prefix substr "") eqn:Hp.
    + split; [|done]. intros _. apply String_prefix_spec in Hp as [post Hp].
      by exists "", post.
    + split; [done|]. intros ([|b pre] & post & Hs); [|done].
      assert (String.prefix substr "" = true) as Hp'
        by (apply String_prefix_spec; by exists post).
      congruence.
  - destruct (String.prefix substr (String a s)) eqn:Hp.
    + split; [|done]. intros _. apply String_prefix_spec in Hp as [post Hp].
      by exists "", post.
    + rewrite IH. split.
      * intros (pre & post & ->). by exists (String a pre), post.
      * intros ([|b pre] & post & Hs).
        -- assert (String.prefix substr (String a s) = true) as Hp'
             by (apply String_prefix_spec; by exists post).
           congruence.
        -- injection Hs as <- ->. by exists pre, post.
Qed.

Lemma not_mentions (s substr : string) :
  ¬ mentions s substr ↔ strings_Contains s substr = false.
Proof.
  unfold mentions. rewrite <- strings_Contains_spec.
  by destruct (strings_Contains s substr).
Qed.

(** X11: [handleError] sorts every lower-layer error into one of the six
    kinds of the package.  A message that mentions a closed connection or
    a broken pipe, anywhere in it, makes the error [ErrClosed] whatever
    else the error is (a timeout, say); [ErrTemp] and [ErrTimeout] are
    given to network errors only.  Of the other errors, one whose
    message mentions a cancellation is [ErrCanceled]; failing that, one
    whose message mentions the end of the input is [ErrEOF]; failing
    that, a network error that is temporary is [ErrTemp], also when it
    is a timeout as well, one that is a timeout only is [ErrTimeout], and
    everything else is [ErrUnknown]. *)
Theorem handleError_kinds (err : syserror) :
  handleError err ∈ [ErrClosed; ErrCanceled; ErrEOF; ErrTemp; ErrTimeout; ErrUnknown]
  ∧ (∀ pre post,
       sys_Error err = pre +:+ "use of closed" +:+ post
       ∨ sys_Error err = pre +:+ "broken pipe" +:+ post →
       handleError err = ErrClosed)
  ∧ (handleError err = ErrTemp → ∃ msg timeout, err = sys_net msg true timeout)
  ∧ (handleError err = ErrTimeout → ∃ msg, err = sys_net msg false true)
  ∧ (¬ mentions (sys_Error err) "use of closed" →
     ¬ mentions (sys_Error err) "broken pipe" →
     (mentions (sys_Error err) "canceled" → handleError err = ErrCanceled)
     ∧ (¬ mentions (sys_Error err) "canceled" →
        (mentions (sys_Error err) "EOF" → handleError err = ErrEOF)
        ∧ (¬ mentions (sys_Error err) "EOF" →
           (∀ msg timeout, err = sys_net msg true timeout → handleError err = ErrTemp)
           ∧ (∀ msg, err = sys_net msg false true → handleError err = ErrTimeout)
           ∧ (∀ msg, err = sys_net msg false false ∨ err = sys_plain msg →
                     handleError err = ErrUnknown)))).
Proof using Type.
  unfold handleError. split; [|split; [|split; [|split]]].
  - destruct (strings_Contains _ "use of closed" || _); [repeat constructor|].
    destruct (strings_Contains _ "canceled"); [repeat constructor|].
    destruct (_ || _); [repeat constructor|].
    destruct err as [| |msg [] []]; repeat constructor.
  - intros pre post [H|H];
      [assert (strings_Contains (sys_Error err) "use of closed" = true) as ->
         by (apply strings_Contains_spec; eauto)
      |assert (strings_Contains (sys_Error err) "broken pipe" = true) as ->
         by (apply strings_Contains_spec; eauto)];
      [reflexivity | by rewrite orb_true_r].
  - destruct (strings_Contains _ "use of closed" || _); [done|].
    destruct (strings_Contains _ "canceled"); [done|].
    destruct (_ || _); [done|].
    destruct err as [| |msg [] []]; try done; eauto.
  - destruct (strings_Contains _ "use of closed" || _); [done|].
    destruct (strings_Contains _ "canceled"); [done|].
    destruct (_ || _); [done|].
    destruct err as [| |msg [] []]; try done; eauto.
  - intros Hclosed%not_mentions Hpipe%not_mentions. rewrite Hclosed, Hpipe.
    cbn [orb]. split.
    + intros Hc%strings_Contains_spec. by rewrite Hc.
    + intros Hc%not_mentions. rewrite Hc. split.
      * intros He%strings_Contains_spec. rewrite He. by rewrite orb_true_r.
      * intros He%not_mentions. rewrite He. rewrite orb_false_r.
        split; [|split].
        -- by intros msg timeout ->.
        -- by intros msg ->.
        -- by intros msg [-> | ->].
Qed.

(** ** TCPConn.Close *)

(** X12: [TCPConn.Close] marks the connection closed whatever closing
    the socket reports, and leaves the endpoint and the counters alone;
    a further [Close] returns no error and changes nothing. *)
Theorem TCPConn_Close_idempotent (e1 e2 : option syserror) (c : TCPConn) :
  let '(r1, c1) := TCPConn_Close e1 c in
  tc_closed c1 = true
  ∧ (tc_closed c = false → r1 = handleError <$> e1)
  ∧ tc_endpoint c1 = tc_endpoint c ∧ tc_conn c1 = tc_conn c
  ∧ TCPConn_Rx c1 = TCPConn_Rx c ∧ TCPConn_Tx c1 = TCPConn_Tx c
  ∧ TCPConn_Close e2 c1 = (None, c1).
Proof.
  unfold TCPConn_Close. destruct (tc_closed c) eqn:Hc; cbn.
  - rewrite Hc. done.
  - done.
Qed.


(** ** The length prefix on the wire *)

Lemma Z_of_byte_of_Z (v : Z) : Z_of_byte (byte_of_Z v) = (v mod 256)%Z.
Proof.
  unfold Z_of_byte, byte_of_Z.
  pose proof (Z.mod_pos_bound v 256) as Hb.
  destruct (Byte.of_N (Z.to_N (v mod 256))) as [b|] eqn:E.
  - apply Byte.to_of_N in E. rewrite E. lia.
  - apply Byte.of_N_None_iff in E. lia.
Qed.

Lemma length_le_bytes (n : nat) (v : Z) : length (le_bytes n v) = n.
Proof. revert v. induction n as [|n IH]; intros v; simpl; [done|]. by rewrite IH. Qed.

Lemma le_value_le_bytes (n : nat) (v : Z) :
  le_value (le_bytes n v) = (v mod 256 ^ Z.of_nat n)%Z.
Proof.
  revert v. induction n as [|n IH]; intros v.
  - simpl. by rewrite Z.mod_1_r.
  - cbn [le_bytes le_value foldr]. fold (le_value (le_bytes n (v / 256))).
    rewrite IH, Z_of_byte_of_Z.
    rewrite Nat2Z.inj_succ, Z.pow_succ_r by lia.
    rewrite Z.rem_mul_r by lia. done.
Qed.

Lemma length_Size_encode (n : Z) : length (Size_encode n) = Size_bytes.
Proof.
  unfold Size_encode. destruct globalOrder;
    by rewrite ?length_rev, length_le_bytes.
Qed.

Lemma Size_decode_encode (n : Z) : Size_decode (Size_encode n) = to_Size n.
Proof.
  unfold Size_decode, Size_encode, to_Size, Size_modulus.
  replace (2 ^ (8 * Z.of_nat Size_bytes))%Z with (256 ^ Z.of_nat Size_bytes)%Z
    by (rewrite Z.pow_mul_r by lia; done).
  destruct globalOrder; rewrite ?rev_involutive; apply le_value_le_bytes.
Qed.

(** ** TCPConn.receive: putting a frame together *)

Lemma io_ReadFull_frame (segs : list (list Byte.byte)) :
  ∀ (need : nat) (acc p rest : list Byte.byte) (tail : list ReadOutcome),
    Forall (λ s, s ≠ []) segs →
    mjoin segs = p ++ rest →
    length p = need →
    ∃ segs',
      io_ReadFull ((ReadData <$> segs) ++ tail) need acc
      = (Return (acc ++ p, None), (ReadData <$> segs') ++ tail)
      ∧ Forall (λ s, s ≠ []) segs'
      ∧ mjoin segs' = rest.
Proof.
  induction segs as [|s segs IH]; intros need acc p rest tail Hne Hj Hlen.
  - simpl in Hj. symmetry in Hj. apply app_eq_nil in Hj as [-> ->].
    simpl in Hlen. subst need. exists []. rewrite app_nil_r.
    split; [by destruct tail|]. done.
  - destruct need as [|need].
    + destruct p; [|done]. exists (s :: segs). rewrite app_nil_r. done.
    + apply Forall_cons in Hne as [Hs Hne]. cbn [fmap list_fmap app io_ReadFull].
      simpl in Hj. case_decide as Hle.
      * apply app_eq_inv in Hj as [(k & Hs' & Hrest)|(k & Hp & Hm)].
        { assert (k = []) as -> by
            (destruct k; [done|]; rewrite Hs', length_app in Hle; simpl in Hle; lia).
          rewrite app_nil_r in Hs'. subst s.
          destruct (IH 0%nat (acc ++ p) [] rest tail Hne) as (segs' & Hr & Hne' & Hj');
            [by rewrite Hrest | done |].
          exists segs'. rewrite Hlen, Nat.sub_diag, Hr, app_nil_r. done. }
        destruct (IH (S need - length s)%nat (acc ++ s) k rest tail Hne Hm)
          as (segs' & Hr & Hne' & Hj').
        { rewrite Hp, length_app in Hlen. lia. }
        exists segs'. rewrite Hr, Hp, app_assoc. done.
      * apply app_eq_inv in Hj as [(k & Hs' & Hrest)|(k & Hp & Hm)].
        2:{ rewrite Hp, length_app in Hlen. lia. }
        exists (k :: segs).
        rewrite Hs', take_app_length', drop_app_length' by done.
        split; [done|]. split; [|by rewrite Hrest].
        constructor; [|done]. intros ->. rewrite Hs', app_nil_r in Hle. lia.
Qed.

Lemma TCPConn_receive_loop_done (fuel : nat) (env : list ReadOutcome)
    (total read : Z) (buffer : list Byte.byte) :
  (total ≤ read)%Z →
  TCPConn_receive_loop fuel env total read buffer = (Return (buffer, read, None), env).
Proof.
  intros H. destruct fuel; cbn [TCPConn_receive_loop];
    by destruct (Z.ltb_spec read total); [lia|].
Qed.

Lemma TCPConn_receive_loop_step (fuel : nat) (s : list Byte.byte)
    (env : list ReadOutcome) (total read : Z) (buffer : list Byte.byte) :
  (read < total)%Z →
  (length s ≤ Z.to_nat total)%nat →
  TCPConn_receive_loop (S fuel) (ReadData s :: env) total read buffer
  = TCPConn_receive_loop fuel env total (to_Size (read + Z.of_nat (length s)))
                         (buffer ++ s).
Proof.
  intros Hlt Hle. cbn [TCPConn_receive_loop].
  destruct (Z.ltb_spec read total); [|lia]. cbn [negb]. cbv zeta.
  rewrite decide_True by done.
  rewrite Nat.min_l by done. by rewrite take_ge by done.
Qed.

Lemma TCPConn_receive_loop_frame (segs : list (list Byte.byte)) :
  ∀ (fuel : nat) (read : Z) (buffer : list Byte.byte) (tail : list ReadOutcome)
    (total : Z),
    Forall (λ s, s ≠ []) segs →
    (0 ≤ read)%Z →
    (read + Z.of_nat (length (mjoin segs)) = total)%Z →
    (total < Size_modulus)%Z →
    (stream_weight ((ReadData <$> segs) ++ tail) < fuel)%nat →
    TCPConn_receive_loop fuel ((ReadData <$> segs) ++ tail) total read buffer
    = (Return (buffer ++ mjoin segs, total, None), tail).
Proof.
  induction segs as [|s segs IH]; intros fuel read buffer tail total Hne Hr Ht HM Hf.
  - simpl in *. rewrite app_nil_r.
    rewrite TCPConn_receive_loop_done by lia. repeat f_equal. lia.
  - apply Forall_cons in Hne as [Hs Hne].
    change (mjoin (s :: segs)) with (s ++ mjoin segs) in *.
    cbn [fmap list_fmap app] in *. rewrite length_app in Ht.
    assert (0 < length s)%nat by (destruct s; [done | simpl; lia]).
    destruct fuel as [|fuel]; [simpl in Hf; lia|].
    rewrite TCPConn_receive_loop_step by lia.
    rewrite to_Size_small by lia.
    rewrite (IH fuel (read + Z.of_nat (length s))%Z (buffer ++ s) tail total Hne);
      [by rewrite app_assoc | lia | lia | done |].
    cbn [stream_weight foldr] in Hf. unfold stream_weight. lia.
Qed.

(** The frame of a payload: its length, then its bytes. *)
Lemma TCPConn_receive_frame
    (c : TCPConn) (b : list Byte.byte) (segs : list (list Byte.byte))
    (tail : list ReadOutcome) :
  (Z.of_nat (length b) < Size_modulus)%Z →
  Forall (λ s, s ≠ []) segs →
  mjoin segs = Size_encode (Z.of_nat (length b)) ++ b →
  TCPConn_receive ((ReadData <$> segs) ++ tail) c
  = (Return (b, None), TCPConn_addReadBytes c (Z.of_nat (length b)), tail).
Proof.
  intros HM Hne Hj. unfold TCPConn_receive.
  destruct (io_ReadFull_frame segs Size_bytes [] _ _ tail Hne Hj (length_Size_encode _))
    as (segs' & -> & Hne' & Hj').
  cbn [app]. rewrite Size_decode_encode, to_Size_small by lia.
  rewrite (TCPConn_receive_loop_frame segs'); [by rewrite Hj' | done | lia | | lia | lia].
  rewrite Hj'. lia.
Qed.

(** X13: [receive] puts a frame together again.  When the bytes of a
    frame (the length of the payload, then the payload) arrive cut into
    non-empty pieces in any way, [receive] returns exactly the payload,
    counts its length as received and leaves what follows the frame on
    the stream. *)
Theorem TCPConn_receive_reassembles
    (c : TCPConn) (b : list Byte.byte) (segs : list (list Byte.byte))
    (tail : list ReadOutcome) :
  (Z.of_nat (length b) < Size_modulus)%Z →
  Forall (λ s, s ≠ []) segs →
  mjoin segs = Size_encode (Z.of_nat (length b)) ++ b →
  TCPConn_receive ((ReadData <$> segs) ++ tail) c
  = (Return (b, None), TCPConn_addReadBytes c (Z.of_nat (length b)), tail)
  ∧ TCPConn_Rx (TCPConn_addReadBytes c (Z.of_nat (length b)))
    = uint64_add (TCPConn_Rx c) (Z.of_nat (length b))
  ∧ TCPConn_Tx (TCPConn_addReadBytes c (Z.of_nat (length b))) = TCPConn_Tx c.
Proof.
  intros HM Hne Hj. split; [by apply TCPConn_receive_frame|]. done.
Qed.

(** X14: what [send] writes, [receive] reads back.  When [send] has
    returned without error, the slices it wrote, delivered to the peer in
    the same order but cut into non-empty pieces in any way, make the
    peer's [receive] return the payload byte for byte. *)
Theorem TCPConn_send_receive_round_trip
    (env : list WriteOutcome) (c c' : TCPConn) (env' : list WriteOutcome)
    (b : list Byte.byte) :
  (0 < Size_bytes)%nat →
  (Z.of_nat (length b) < Size_modulus)%Z →
  TCPConn_send env c b = (Return None, c', env') →
  ∃ slices,
    nc_written (tc_conn c') = nc_written (tc_conn c) ++ slices
    ∧ Forall (λ s, s ≠ []) slices
    ∧ ∀ (peer : TCPConn) (segs : list (list Byte.byte)) (tail : list ReadOutcome),
        Forall (λ s, s ≠ []) segs →
        mjoin segs = mjoin slices →
        TCPConn_receive ((ReadData <$> segs) ++ tail) peer
        = (Return (b, None), TCPConn_addReadBytes peer (Z.of_nat (length b)), tail).
Proof.
  intros Hw HM. unfold TCPConn_send. rewrite to_Size_small by lia.
  destruct env as [|[|err] env]; [done| |done].
  intros Hrun. apply TCPConn_send_loop_spec in Hrun; [| lia | lia | lia].
  destruct Hrun as (chunks & rest & Hwr & Hall & Hb & _ & Hfin).
  cbn [send_finished] in Hfin. destruct Hfin as [-> _]. rewrite app_nil_r in Hb.
  exists (Size_encode (Z.of_nat (length b)) :: chunks).
  cbn in Hwr. rewrite <- app_assoc in Hwr. split; [done|]. split.
  - constructor.
    + intros Hnil. pose proof (length_Size_encode (Z.of_nat (length b))) as Hl.
      rewrite Hnil in Hl. simpl in Hl. lia.
    + eapply Forall_impl; [exact Hall|]. intros s Hs ->. simpl in Hs. lia.
  - intros peer segs tail Hne Hj. apply TCPConn_receive_frame; [done | done |].
    rewrite Hj. subst b. reflexivity.
Qed.

(** X15: [receive] offers every [Read] a buffer of the whole payload
    length, however much of the payload it already has.  So when the
    payload comes in two reads, the first one short, the second read may
    bring bytes from beyond the frame, and [receive] returns them all:
    more bytes than the prefix announced. *)
Theorem TCPConn_receive_reads_past_frame
    (c : TCPConn) (n : nat) (s1 s2 : list Byte.byte) (tail : list ReadOutcome) :
  (length s1 < n)%nat →
  (n - length s1 < length s2 ≤ n)%nat →
  (Z.of_nat (length s1 + length s2) < Size_modulus)%Z →
  TCPConn_receive
    (ReadData (Size_encode (Z.of_nat n)) :: ReadData s1 :: ReadData s2 :: tail) c
  = (Return (s1 ++ s2, None),
     TCPConn_addReadBytes c (Z.of_nat (length s1 + length s2)), tail)
  ∧ (n < length (s1 ++ s2))%nat.
Proof.
  intros H1 H2 HM. split; [|rewrite length_app; lia].
  unfold TCPConn_receive.
  destruct (io_ReadFull_frame [Size_encode (Z.of_nat n)] Size_bytes []
              (Size_encode (Z.of_nat n)) [] (ReadData s1 :: ReadData s2 :: tail))
    as (segs' & Hr & Hne' & Hj').
  { constructor; [|done]. intros Hnil.
    pose proof (Size_decode_encode (Z.of_nat n)) as Hd. rewrite Hnil in Hd.
    rewrite to_Size_small in Hd by lia.
    unfold Size_decode in Hd. destruct globalOrder; simpl in Hd; lia. }
  { cbn. by rewrite !app_nil_r. }
  { apply length_Size_encode. }
  assert (segs' = []) as ->.
  { destruct segs' as [|s segs']; [done|]. apply Forall_cons in Hne' as [Hs _].
    simpl in Hj'. apply app_eq_nil in Hj' as [-> _]. done. }
  cbn [fmap list_fmap app] in Hr. rewrite Hr. cbn [app].
  rewrite Size_decode_encode, to_Size_small by lia.
  cbn [stream_weight foldr].
  rewrite TCPConn_receive_loop_step by lia.
  rewrite to_Size_small by lia.
  rewrite TCPConn_receive_loop_step by lia.
  rewrite to_Size_small by lia.
  rewrite TCPConn_receive_loop_done by lia.
  cbn [app]. repeat f_equal. lia.
Qed.


(** ** TCPConn.Receive: what it returns *)

Lemma TCPConn_receive_endpoint (env : list ReadOutcome) (c : TCPConn) :
  tc_endpoint (TCPConn_receive env c).1.2 = tc_endpoint c
  ∧ bTx (TCPConn_receive env c).1.2 = bTx c.
Proof.
  unfold TCPConn_receive.
  destruct (io_ReadFull env Size_bytes []) as [[[? [?|]]| |] ?]; try done.
  destruct (TCPConn_receive_loop _ _ _ _ _) as [[[[? ?] [?|]]| |] ?]; done.
Qed.

(** X16: whenever [Receive] returns an error, the packet next to it is
    the empty packet, and the received-byte counter moves only when a
    whole buffer was read; whenever it returns no error, the packet is
    the one the decoder produced from the received buffer, with [From]
    set to the remote endpoint of the connection. *)
Theorem TCPConn_Receive_results
    (env : list ReadOutcome) (c c' : TCPConn) (cx : context_Context)
    (p : Packet) (err : option error) (env' : list ReadOutcome) :
  TCPConn_Receive env c cx = (Return (p, err), c', env') →
  match err with
  | Some _ => p = EmptyApplicationPacket
  | None =>
      ∃ buff am,
        TCPConn_receive env c = (Return (buff, None), c', env')
        ∧ Packet_UnmarshalBinary buff = Return (am, None)
        ∧ p = {| MsgType := MsgType am; Msg := Msg am;
                 From := NewAddress PlainTCP (TCPConn_Remote c) |}
  end.
Proof.
  unfold TCPConn_Receive, TCPConn_Receive_body.
  pose proof (TCPConn_receive_endpoint env c) as [He _].
  destruct (TCPConn_receive env c) as [[[[buff [e|]]| |] c1] env1]; cbn [fst snd] in He.
  - intros [= <- <- <- <-]. done.
  - destruct (Packet_UnmarshalBinary buff) as [[am [e|]]| |] eqn:Hu.
    + intros [= <- <- <- <-]. done.
    + intros [= <- <- <- <-]. exists buff, am. unfold TCPConn_Remote. by rewrite He.
    + intros [= <- <- <- <-]. done.
    + done.
  - intros [= <- <- <- <-]. done.
  - done.
Qed.

(** ** NewTCPConn: the first dial that succeeds *)

Lemma NewTCPConn_loop_first_success
    (k : nat) (dials : nat → netConn + syserror) (errs : nat → syserror)
    (nc : netConn) (address : string) :
  ∀ (n i : nat) (conn : option netConn) (err : option syserror),
    (∀ j, (j < k)%nat → dials (i + j)%nat = inr (errs (i + j)%nat)) →
    dials (i + k)%nat = inl nc →
    (k < n)%nat →
    NewTCPConn_loop n i dials address conn err
    = ((Some nc, None),
       mjoin (replicate k [EvDial address; EvSleep WaitRetry; EvSleep WaitRetry])
       ++ [EvDial address]).
Proof.
  induction k as [|k IH]; intros n i conn err Hfail Hok Hn;
    (destruct n as [|n]; [lia|]); cbn [NewTCPConn_loop].
  - rewrite Nat.add_0_r in Hok. by rewrite Hok.
  - pose proof (Hfail 0%nat ltac:(lia)) as H0. rewrite Nat.add_0_r in H0. rewrite H0.
    rewrite (IH n (S i) None (Some (errs i))); [done | | | lia].
    + intros j Hj. replace (S i + j)%nat with (i + S j)%nat by lia. apply Hfail. lia.
    + by replace (S i + k)%nat with (i + S k)%nat by lia.
Qed.

(** X17: [NewTCPConn] stops dialling at the first dial that succeeds.
    When the first [k] dials fail and the next one, still within
    [MaxRetry], succeeds, it returns a connection to the address over
    the socket that dial produced, open, with both counters at zero, and
    no error; it has slept twice [WaitRetry] after each failure and not
    at all after the success. *)
Theorem NewTCPConn_first_success
    (k : nat) (dials : nat → netConn + syserror) (errs : nat → syserror)
    (nc : netConn) (address : string) :
  (∀ j, (j < k)%nat → dials j = inr (errs j)) →
  dials k = inl nc →
  (k < MaxRetry)%nat →
  NewTCPConn dials address
  = ((Some {| tc_endpoint := address; tc_conn := nc; tc_closed := false;
              bRx := 0; bTx := 0 |}, None),
     mjoin (replicate k [EvDial address; EvSleep WaitRetry; EvSleep WaitRetry])
     ++ [EvDial address]).
Proof.
  intros Hfail Hok Hk. unfold NewTCPConn.
  by rewrite (NewTCPConn_loop_first_success k dials errs nc address).
Qed.

(** ** TCPListener: binding and stopping *)

Lemma TCPListener_bind_loop_fails (binds : nat → option syserror) (errs : nat → syserror) :
  (∀ j, binds j = Some (errs j)) →
  ∀ n i : nat,
    (i + n = MaxRetry)%nat →
    (0 < n)%nat →
    TCPListener_bind_loop n i binds
    = (inr (errors_New ("Error opening listener: " +:+ sys_Error (errs (MaxRetry - 1)%nat))),
       replicate (n - 1) (EvSleep WaitRetry)).
Proof.
  intros Hb. induction n as [|n IH]; intros i Hi Hn; [lia|].
  cbn [TCPListener_bind_loop]. rewrite Hb.
  destruct (Nat.eqb_spec i (MaxRetry - 1)) as [->|Hne].
  - by replace n with 0%nat by lia.
  - rewrite IH by lia. destruct n as [|n]; [lia|]. simpl.
    by rewrite Nat.sub_0_r.
Qed.

Lemma TCPListener_bind_loop_succeeds (binds : nat → option syserror) (errs : nat → syserror)
    (k : nat) :
  ∀ n i : nat,
    (i + n = MaxRetry)%nat →
    (k < n)%nat →
    (∀ j, (j < k)%nat → binds (i + j)%nat = Some (errs (i + j)%nat)) →
    binds (i + k)%nat = None →
    TCPListener_bind_loop n i binds
    = (inl (Some ListenerOpen), replicate k (EvSleep WaitRetry)).
Proof.
  induction k as [|k IH]; intros n i Hi Hk Hfail Hok;
    (destruct n as [|n]; [lia|]); cbn [TCPListener_bind_loop].
  - rewrite Nat.add_0_r in Hok. by rewrite Hok.
  - pose proof (Hfail 0%nat ltac:(lia)) as H0. rewrite Nat.add_0_r in H0. rewrite H0.
    destruct (Nat.eqb_spec i (MaxRetry - 1)) as [->|Hne]; [lia|].
    rewrite (IH n (S i)); [done | lia | lia | |].
    + intros j Hj. replace (S i + j)%nat with (i + S j)%nat by lia. apply Hfail. lia.
    + by replace (S i + k)%nat with (i + S k)%nat by lia.
Qed.

(** X18: [listen] tries to bind at most [MaxRetry] times, sleeping
    [WaitRetry] between two tries.  When a try within the bound
    succeeds, it goes on to wait in [Accept] with the listener open;
    when all tries fail, it returns an error that carries the message of
    the last failure, having slept [MaxRetry - 1] times.  Either way the
    listener is marked as listening from then on. *)
Theorem TCPListener_listen_bind_retry
    (binds : nat → option syserror) (errs : nat → syserror) (t : TCPListener) :
  (0 < MaxRetry)%nat →
  (∀ k, (k < MaxRetry)%nat →
        (∀ j, (j < k)%nat → binds j = Some (errs j)) →
        binds k = None →
        TCPListener_listen binds t
        = (Blocks,
           {| tl_listener := Some ListenerOpen; tl_quit := ChanOpen;
              tl_listening := true; tl_connType := tl_connType t |},
           replicate k (EvSleep WaitRetry)))
  ∧ ((∀ j, binds j = Some (errs j)) →
     TCPListener_listen binds t
     = (Return (Some (errors_New ("Error opening listener: "
                                  +:+ sys_Error (errs (MaxRetry - 1)%nat)))),
        {| tl_listener := tl_listener t; tl_quit := ChanOpen;
           tl_listening := true; tl_connType := tl_connType t |},
        replicate (MaxRetry - 1) (EvSleep WaitRetry))).
Proof.
  intros Hn. split.
  - intros k Hk Hfail Hok. unfold TCPListener_listen.
    by rewrite (TCPListener_bind_loop_succeeds binds errs k MaxRetry 0).
  - intros Hb. unfold TCPListener_listen.
    by rewrite (TCPListener_bind_loop_fails binds errs Hb MaxRetry 0).
Qed.

Lemma TCPListener_Stop_loop_no_listener (acks : list bool) (t : TCPListener) :
  tl_listener t = None →
  Forall (λ a, a = false) acks →
  TCPListener_Stop_loop acks t = (Blocks, t).
Proof.
  intros Hl Ha. induction acks as [|a acks IH]; cbn [TCPListener_Stop_loop];
    rewrite Hl; [done|].
  apply Forall_cons in Ha as [-> Ha]. by apply IH.
Qed.

(** X19: [Stop] on a listener whose [Listen] is running closes the
    listening socket and returns no error when the accept loop
    acknowledges within the first poll interval; when the interval
    passes first, [Stop] closes the socket a second time and returns the
    error of that close.  On a listener that is marked as listening but
    has no socket (its bind failed) and whose accept loop therefore never
    acknowledges, [Stop] closes the quit channel and then polls without
    end. *)
Theorem TCPListener_Stop_outcomes (acks : list bool) (t : TCPListener) :
  tl_listening t = true →
  tl_quit t = ChanOpen →
  (tl_listener t = Some ListenerOpen →
   TCPListener_Stop (true :: acks) t
   = (Return None,
      {| tl_listener := Some ListenerClosed; tl_quit := ChanClosed;
         tl_listening := true; tl_connType := tl_connType t |})
   ∧ TCPListener_Stop (false :: acks) t
     = (Return (Some (sysError (sys_net "use of closed network connection" false false))),
        {| tl_listener := Some ListenerClosed; tl_quit := ChanClosed;
           tl_listening := true; tl_connType := tl_connType t |}))
  ∧ (tl_listener t = None →
     Forall (λ a, a = false) acks →
     TCPListener_Stop acks t
     = (Blocks,
        {| tl_listener := None; tl_quit := ChanClosed;
           tl_listening := true; tl_connType := tl_connType t |})).
Proof.
  intros Hl Hq. unfold TCPListener_Stop. rewrite Hl, Hq. cbn [negb chan_close].
  split.
  - intros Hs. rewrite Hs. split; [done|].
    cbn [TCPListener_Stop_loop tl_listener netListener_Close].
    by destruct acks.
  - intros Hs Ha. rewrite Hs. by apply TCPListener_Stop_loop_no_listener.
Qed.


(** ** TCPConn.send: how it can end *)

Lemma TCPConn_send_loop_outcomes (env : list WriteOutcome) :
  ∀ (c : TCPConn) (packetSize sent : Z) (b : list Byte.byte)
    (r : Outcome (option error)) (c' : TCPConn) (env' : list WriteOutcome),
    (0 ≤ sent)%Z →
    (sent + Z.of_nat (length b) = packetSize)%Z →
    (packetSize < Size_modulus)%Z →
    TCPConn_send_loop env c packetSize sent b = (r, c', env') →
    (tc_endpoint c' = tc_endpoint c ∧ tc_closed c' = tc_closed c ∧ bRx c' = bRx c)
    ∧ match r with
      | Return None => ∃ k, env = replicate k WriteOk ++ env'
      | Return (Some e) =>
          ∃ k err, env = replicate k WriteOk ++ WriteErr err :: env'
                   ∧ e = handleError err
      | Blocks => env' = [] ∧ ∃ k, env = replicate k WriteOk
      | Panics _ => False
      end.
Proof.
  induction env as [|o env IH]; intros c P sent b r c' env' H0 Hinv HP;
    rewrite TCPConn_send_loop_unfold; cbv zeta.
  all: destruct (Z.ltb_spec sent P) as [Hlt|Hge]; simpl negb; cbv iota.
  all: try (intros [= <- <- <-]; split; [done|]; by exists 0%nat).
  all: rewrite to_Size_small by lia.
  all: set (len1 := if (P - sent >? maxChunkSize)%Z then maxChunkSize else (P - sent)%Z).
  all: assert (0 < len1 ≤ 1400 ∧ len1 ≤ Z.of_nat (length b))%Z as Hlen
      by (unfold len1, maxChunkSize; destruct (Z.gtb_spec (P - sent) 1400); lia).
  all: destruct (Z.gtb_spec len1 (Z.of_nat (length b))) as [?|_]; [lia|].
  - intros [= <- <- <-]. split; [done|]. split; [done|]. by exists 0%nat.
  - destruct o as [|err].
    + assert (length (take (Z.to_nat len1) b) = Z.to_nat len1) as Htake
        by (rewrite length_take; lia).
      rewrite Htake, Z2Nat.id by lia.
      rewrite to_Size_small by lia.
      intros Hrun. apply IH in Hrun; [| lia | rewrite length_drop; lia | lia].
      destruct Hrun as [Hfields Hr]. split; [done|].
      destruct r as [[e|]| |].
      * destruct Hr as (k & err & -> & ->). by exists (S k), err.
      * destruct Hr as (k & ->). by exists (S k).
      * done.
      * destruct Hr as (-> & k & ->). split; [done|]. by exists (S k).
    + intros [= <- <- <-]. split; [done|]. by exists 0%nat, err.
Qed.

(** X20: how [send] can end, for a payload that fits the length prefix.
    It never panics.  It returns without error only after a run of
    successful writes; it waits only when the socket takes no further
    write; and an error it returns is either the error of the write of
    the prefix, passed on as it came with nothing written, or the error
    of a later write, sorted into one of the package's kinds.  Whatever
    the end, the endpoint, the closed mark and the received-byte counter
    of the connection stay as they were. *)
Theorem TCPConn_send_outcomes
    (env : list WriteOutcome) (c c' : TCPConn) (b : list Byte.byte)
    (r : Outcome (option error)) (env' : list WriteOutcome) :
  (Z.of_nat (length b) < Size_modulus)%Z →
  TCPConn_send env c b = (r, c', env') →
  (tc_endpoint c' = tc_endpoint c ∧ tc_closed c' = tc_closed c
   ∧ TCPConn_Rx c' = TCPConn_Rx c)
  ∧ match r with
    | Return None => ∃ k, env = replicate (S k) WriteOk ++ env'
    | Return (Some e) =>
        (∃ err, env = WriteErr err :: env' ∧ e = sysError err ∧ c' = c)
        ∨ (∃ k err, env = replicate (S k) WriteOk ++ WriteErr err :: env'
                    ∧ e = handleError err)
    | Blocks => env' = [] ∧ ∃ k, env = replicate k WriteOk
    | Panics _ => False
    end.
Proof.
  intros HM. unfold TCPConn_send. rewrite to_Size_small by lia.
  destruct env as [|[|err] env].
  - intros [= <- <- <-]. split; [done|]. split; [done|]. by exists 0%nat.
  - intros Hrun. apply TCPConn_send_loop_outcomes in Hrun; [| lia | lia | lia].
    destruct Hrun as [Hfields Hr]. split; [done|].
    destruct r as [[e|]| |].
    + right. destruct Hr as (k & err & -> & ->). by exists k, err.
    + destruct Hr as (k & ->). by exists k.
    + done.
    + destruct Hr as (-> & k & ->). split; [done|]. by exists (S k).
  - intros [= <- <- <-]. split; [done|]. left. by exists err.
Qed.

(** ** LocalListener.Stop on a listener that never listened *)

(** X21: [Stop] takes the listener's address out of the registry whether
    or not this listener ever listened.  So when two listeners were bound
    to the same free [Local] address and the first one listens, stopping
    the second one, which never listened, makes the address stop
    listening although the first listener is still marked as listening. *)
Theorem LocalListener_Stop_idle_unregisters
    (ccc : LocalContext) (a : Address) (fn : Callback) :
  ConnType_of a = Local →
  listening ccc !! a = None →
  let '(l1, err1) := NewLocalListenerWithContext ccc a in
  let '(l2, err2) := NewLocalListenerWithContext ccc a in
  let '(_, l1', ccc1) := LocalListener_Listen ccc l1 fn in
  let '(r, l2', ccc2) := LocalListener_Stop ccc1 l2 in
  err1 = None ∧ err2 = None
  ∧ LocalContext_IsListening ccc1 a = true
  ∧ ll_listening l2 = false
  ∧ r = Return None
  ∧ ll_listening l1' = true
  ∧ LocalContext_IsListening ccc2 a = false.
Proof.
  intros Ha Hl.
  unfold NewLocalListenerWithContext, LocalListener_bind, LocalContext_IsListening.
  rewrite bool_decide_eq_true_2 by done. rewrite Hl. cbn [negb].
  unfold LocalListener_Listen, LocalListener_Stop. cbn [ll_addr ll_listening ll_quit].
  do 2 (split; [done|]).
  split; [cbn; by rewrite lookup_insert_eq|].
  do 3 (split; [done|]).
  cbn. by rewrite lookup_delete_eq.
Qed.

End Network.

(** * Scenarios *)

(** Two virtual addresses and a socket address; string bodies that all
    carry the type tag 1; callbacks known by name. *)
Definition addrA : Address := NewLocalAddress "A".
Definition addrB : Address := NewLocalAddress "B".
Definition addrTCP : Address := NewAddress PlainTCP "10.0.0.2:2000".

Definition tagOf (_ : string) : nat := 1.
Definition noPointer (_ : string) : reflect_Value string := reflect_Other.

(** Messages that may be pointers or nil: the empty string stands for the
    nil interface, ["*"] for a nil pointer, ["*"] followed by [s] for a
    pointer to [s], and anything else for a plain value. *)
Definition reflectOf (msg : string) : reflect_Value string :=
  if String.eqb msg "" then reflect_Invalid
  else if String.eqb msg "*" then reflect_Ptr None
  else if String.prefix "*" msg
       then reflect_Ptr (Some (String.substring 1 (String.length msg - 1) msg))
  else reflect_Other.

Definition emptyPacket : @Packet string nat :=
  {| MsgType := 0%nat; Msg := ""; From := Address_zero |}.

(** The packet that [Send] builds for the body ["ping"]. *)
Definition ping : @Packet string nat :=
  {| MsgType := 1%nat; Msg := "ping"; From := Address_zero |}.

Definition pong : @Packet string nat :=
  {| MsgType := 1%nat; Msg := "pong"; From := Address_zero |}.

(** A fresh context in which [B] listens. *)
Definition listeningB : @World string nat string :=
  {| ctx := LocalContext_Listening NewLocalContext addrB "onAccept";
     heap := [];
     spawned := [] |}.

(** [A] has connected to [B] ... *)
Definition outgoingAB : LocalConn :=
  {| local := Endpoint addrA 0; remote := Endpoint addrB 1; connQueue_of := 0 |}.
Definition incomingAB : LocalConn :=
  {| local := Endpoint addrB 1; remote := Endpoint addrA 0; connQueue_of := 1 |}.
Definition connectedAB : @World string nat string :=
  (LocalContext_Connect listeningB addrA addrB).2.

(** ... and has sent ["ping"]. *)
Definition pingSent : @World string nat string :=
  (LocalConn_Send tagOf noPointer connectedAB outgoingAB context_Background "ping").2.

Definition hostA : LocalHost :=
  {| lh_addr := addrA;
     lh_listener := {| ll_addr := addrA; ll_listening := false; ll_quit := ChanOpen |} |}.

(** A socket connection with nothing sent yet, and payloads. *)
Definition connTCP : TCPConn :=
  {| tc_endpoint := "10.0.0.2:2000";
     tc_conn := {| nc_LocalAddr := "10.0.0.1:40000";
                   nc_RemoteAddr := "10.0.0.2:2000";
                   nc_written := [] |};
     tc_closed := false; bRx := 0; bTx := 0 |}.

Definition payload2000 : list Byte.byte := replicate 2000 Byte.x61.
Definition payload3000 : list Byte.byte := replicate 3000 Byte.x62.

Definition refused (_ : nat) : netConn + syserror :=
  inr (sys_net "connection refused" false false).

(** A decoder that panics, and a stream carrying one frame of two bytes. *)
Definition panickingDecoder (_ : list Byte.byte)
  : Outcome (@Packet string nat * option error) :=
  Panics (panic_value "unregistered message type").
Definition tagName (_ : nat) : string := "tag".
Definition oneFrame : list ReadOutcome :=
  [ReadData [Byte.x00; Byte.x00; Byte.x00; Byte.x02]; ReadData [Byte.x01; Byte.x02]].

(** A listener whose [Listen] has bound its address and sits in [Accept]. *)
Definition listenerStarted : TCPListener :=
  (TCPListener_listen 10 100 (λ _, None) NewTCPListener).1.2.

(** ** C1 *)

Lemma LocalConn_Send_Receive_ping :
  listening (ctx listeningB) !! addrB = Some "onAccept"
  ∧ ∃ outgoing incoming w1,
      LocalContext_Connect listeningB addrA addrB = ((Some outgoing, None), w1)
      ∧ spawned w1 = spawned listeningB ++ [("onAccept", incoming)]
      ∧ LocalConn_Local outgoing = addrA
      ∧ ∃ w2 w3,
          LocalConn_Send tagOf noPointer w1 outgoing context_Background "ping"
          = (Return None, w2)
          ∧ LocalConn_Receive emptyPacket w2 incoming context_Background
            = (Return ({| MsgType := tagOf "ping"; Msg := "ping";
                          From := Address_zero |}, None), w3).
Proof.
  split; [reflexivity|].
  apply (LocalConn_Send_Receive tagOf noPointer emptyPacket listeningB addrA addrB
           "onAccept" context_Background context_Background "ping").
  reflexivity.
Defined.

(** The scenario of the round trip, run: the packet [B] receives has the
    tag and the body sent by [A], and a [From] that is not [A]. *)
Example ping_From_is_not_sender :
  (LocalConn_Receive emptyPacket pingSent incomingAB context_Background).1
  = Return (ping, None)
  ∧ LocalConn_Local outgoingAB = addrA
  ∧ From ping ≠ LocalConn_Local outgoingAB.
Proof. split; [by vm_compute|]. split; [done|]. by vm_compute. Qed.

(** ** C2 *)

(** Two packets are pending when the queue is closed: the next [Pop]
    reports [ErrClosed] instead of handing out the older one, and the two
    packets stay in the queue. *)
Lemma connQueue_Pop_after_Close_drops_pending :
  let c := connQueue_Close (connQueue_Push (connQueue_Push newConnQueue ping) pong) in
  queue c = [ping; pong]
  ∧ connQueue_Pop emptyPacket c = (Return (emptyPacket, Some ErrClosed), c)
  ∧ (connQueue_Pop emptyPacket c).1 ≠ Return (ping, None).
Proof. by vm_compute. Qed.

(** ** C3 *)

Lemma TCPListener_Stop_twice_panics_witness :
  tl_listening listenerStarted = true
  ∧ TCPListener_Stop [true] listenerStarted
    = (Return None,
       {| tl_listener := Some ListenerClosed; tl_quit := ChanClosed;
          tl_listening := true; tl_connType := PlainTCP |})
  ∧ TCPListener_Stop []
      {| tl_listener := Some ListenerClosed; tl_quit := ChanClosed;
         tl_listening := true; tl_connType := PlainTCP |}
    = (Panics (runtime_error "close of closed channel"),
       {| tl_listener := Some ListenerClosed; tl_quit := ChanClosed;
          tl_listening := true; tl_connType := PlainTCP |}).
Proof.
  split; [reflexivity|]. split; [reflexivity|].
  apply (TCPListener_Stop_twice_panics [true] [] listenerStarted _ None);
    reflexivity.
Defined.

(** ** C4 *)

(** Registering [B] a second time, directly or through two listeners
    bound before either listens, reports nothing and replaces the first
    callback. *)
Example Listening_twice_replaces_callback :
  let ccc0 : @LocalContext string := NewLocalContext in
  let ccc1 := LocalContext_Listening ccc0 addrB "first" in
  let ccc2 := LocalContext_Listening ccc1 addrB "second" in
  let '(l1, err1) := NewLocalListenerWithContext ccc0 addrB in
  let '(l2, err2) := NewLocalListenerWithContext ccc0 addrB in
  let '(_, _, ccc1') := LocalListener_Listen ccc0 l1 "first" in
  let '(_, _, ccc2') := LocalListener_Listen ccc1' l2 "second" in
  listening ccc1 !! addrB = Some "first"
  ∧ listening ccc2 !! addrB = Some "second"
  ∧ err1 = None ∧ err2 = None
  ∧ listening ccc1' !! addrB = Some "first"
  ∧ listening ccc2' !! addrB = Some "second".
Proof. by vm_compute. Qed.

Lemma LocalListener_Listen_twice_witness :
  let ccc : @LocalContext string := NewLocalContext in
  ConnType_of addrB = Local
  ∧ listening ccc !! addrB = None
  ∧ let '(l1, err1) := NewLocalListenerWithContext ccc addrB in
    let '(l2, err2) := NewLocalListenerWithContext ccc addrB in
    let '(r1, l1', ccc1) := LocalListener_Listen ccc l1 "first" in
    let '(r2, l2', ccc2) := LocalListener_Listen ccc1 l2 "second" in
    err1 = None ∧ err2 = None ∧ ll_addr l1 = addrB ∧ ll_addr l2 = addrB
    ∧ r1 = Blocks ∧ ll_listening l1' = true
    ∧ listening ccc1 !! addrB = Some "first"
    ∧ (∀ ll, LocalListener_bind ccc1 ll addrB
             = (Some (fmt_Errorf "%s is already listening: can't listen again"
                                 [ArgAddress addrB]), ll))
    ∧ r2 = Blocks ∧ ll_listening l2' = true
    ∧ listening ccc2 !! addrB = Some "second"
    ∧ ccc2 = LocalContext_Listening ccc addrB "second".
Proof.
  intros ccc. split; [reflexivity|]. split; [reflexivity|].
  exact (LocalListener_Listen_twice ccc addrB "first" "second" eq_refl eq_refl).
Defined.

(** ** C5 *)

(** With a context that is already cancelled, [Receive] hands out the
    queued packet without error, and on an empty queue it waits. *)
Lemma Receive_cancelled_context_returns_packet :
  ctx_cancelled context_Cancelled = true
  ∧ (LocalConn_Receive emptyPacket pingSent incomingAB context_Cancelled).1
    = Return (ping, None)
  ∧ (LocalConn_Receive emptyPacket pingSent incomingAB context_Cancelled).1
    ≠ Return (emptyPacket, Some ErrCanceled)
  ∧ (LocalConn_Receive emptyPacket connectedAB incomingAB context_Cancelled).1
    = Blocks.
Proof. by vm_compute. Qed.

Lemma Receive_ignores_context_witness :
  heap pingSent !! connQueue_of incomingAB
  = Some {| queue := [ping]; isClosed := false |}
  ∧ isClosed {| queue := [ping]; isClosed := false |} = false
  ∧ (LocalConn_Receive emptyPacket pingSent incomingAB context_Cancelled).1
    = Return (ping, None)
  ∧ LocalConn_Receive emptyPacket pingSent incomingAB context_Cancelled
    = LocalConn_Receive emptyPacket pingSent incomingAB context_Background
  ∧ TCPConn_Receive emptyPacket 4 BigEndian panickingDecoder tagName oneFrame connTCP
      context_Cancelled
    = TCPConn_Receive emptyPacket 4 BigEndian panickingDecoder tagName oneFrame connTCP
        context_Background.
Proof.
  split; [reflexivity|]. split; [reflexivity|].
  apply (Receive_ignores_context emptyPacket 4 BigEndian panickingDecoder tagName
           pingSent incomingAB {| queue := [ping]; isClosed := false |}
           context_Cancelled oneFrame connTCP); reflexivity.
Defined.

(** ** C6 *)

(** A payload of 2000 bytes over a four-byte prefix.  The prefix and the
    first chunk of 1400 bytes are written; whether the next write then
    fails or is still pending, the counter has not moved. *)
Lemma TCPConn_send_Tx_not_per_chunk :
  let '(r1, c1, _) :=
    TCPConn_send 4 BigEndian [WriteOk; WriteOk; WriteErr (sys_plain "broken pipe")]
                 connTCP payload2000 in
  let '(r2, c2, _) := TCPConn_send 4 BigEndian [WriteOk; WriteOk] connTCP payload2000 in
  r1 = Return (Some ErrClosed)
  ∧ nc_written (tc_conn c1) = [Size_encode 4 BigEndian 2000; take 1400 payload2000]
  ∧ TCPConn_Tx connTCP = 0%Z ∧ TCPConn_Tx c1 = 0%Z ∧ TCPConn_Tx c1 ≠ 1400%Z
  ∧ r2 = Blocks
  ∧ nc_written (tc_conn c2) = [Size_encode 4 BigEndian 2000; take 1400 payload2000]
  ∧ TCPConn_Tx c2 = 0%Z.
Proof. by vm_compute. Qed.

Lemma TCPConn_send_chunked_witness :
  (Z.of_nat (length payload3000) < Size_modulus 4)%Z
  ∧ (∀ tail, ∃ c' env',
        TCPConn_send 4 BigEndian
          (replicate (S (chunks_needed (length payload3000))) WriteOk ++ tail)
          connTCP payload3000
        = (Return None, c', env'))
  ∧ (∀ env r c' env',
       TCPConn_send 4 BigEndian env connTCP payload3000 = (r, c', env') →
       match env with
       | WriteOk :: _ =>
           ∃ chunks rest,
             nc_written (tc_conn c')
             = nc_written (tc_conn connTCP)
               ++ Size_encode 4 BigEndian (Z.of_nat (length payload3000)) :: chunks
             ∧ Forall (λ ch, 0 < length ch ≤ 1400)%nat chunks
             ∧ payload3000 = mjoin chunks ++ rest
             ∧ (if send_finished r
                then rest = []
                     ∧ bTx c' = uint64_add (bTx connTCP) (Z.of_nat (length payload3000))
                else rest ≠ [] ∧ bTx c' = bTx connTCP)
       | _ => send_finished r = false ∧ c' = connTCP
       end).
Proof.
  assert (Z.of_nat (length payload3000) < Size_modulus 4)%Z as H by (by vm_compute).
  split; [exact H|].
  exact (TCPConn_send_chunked 4 BigEndian connTCP payload3000 H).
Defined.

(** A complete run: three chunks of 1400, 1400 and 200 bytes after the
    prefix, and the counter at 3000. *)
Example TCPConn_send_payload3000 :
  let '(r, c', env') :=
    TCPConn_send 4 BigEndian (replicate 4 WriteOk) connTCP payload3000 in
  r = Return None
  ∧ length <$> nc_written (tc_conn c') = [4; 1400; 1400; 200]%nat
  ∧ mjoin (drop 1 (nc_written (tc_conn c'))) = payload3000
  ∧ TCPConn_Tx c' = 3000%Z
  ∧ env' = [].
Proof. by vm_compute. Qed.

(** ** C7 *)

(** Every dial of a socket address is refused: after ten dials the error
    returned is a new one, built around the last refusal. *)
Lemma TCPHost_Connect_wraps_last_error :
  let '((c, err), tr) := TCPHost_Connect 10 100 refused (NewTCPHost "A") addrTCP in
  c = None
  ∧ err = Some (fmt_Errorf "Could not connect to %s: %s"
                  [ArgString "10.0.0.2:2000";
                   ArgError (sysError (sys_net "connection refused" false false))])
  ∧ err ≠ Some (sysError (sys_net "connection refused" false false))
  ∧ length (filter (λ e, e = EvDial "10.0.0.2:2000") tr) = 10%nat.
Proof. by vm_compute. Qed.

Lemma Host_Connect_bounded_retry_witness :
  let errs := λ _ : nat, sys_net "connection refused" false false in
  (ConnType_of addrB = Local
   ∧ listening (ctx (@NewWorld string nat string)) !! addrB = None
   ∧ (0 < 10)%nat
   ∧ LocalHost_Connect 10 100 (@NewWorld string nat string) hostA addrB
     = ((None, Some (not_listening_error (lh_addr hostA) addrB)), NewWorld,
        mjoin (replicate 10 [EvConnect (lh_addr hostA) addrB; EvSleep 100])))
  ∧ (ConnType_of addrTCP = PlainTCP
     ∧ (∀ j, refused j = inr (errs j))
     ∧ (0 < 10)%nat
     ∧ TCPHost_Connect 10 100 refused (NewTCPHost "A") addrTCP
       = ((None,
           Some (fmt_Errorf "Could not connect to %s: %s"
                   [ArgString (NetworkAddress addrTCP);
                    ArgError (sysError (errs (10 - 1)%nat))])),
          mjoin (replicate 10
                   [EvDial (NetworkAddress addrTCP); EvSleep 100; EvSleep 100]))).
Proof.
  intros errs.
  destruct (Host_Connect_bounded_retry 10 10 100 (@NewWorld string nat string) hostA addrB
              (NewTCPHost "A") refused errs addrTCP) as [HL HT].
  split.
  - split; [reflexivity|]. split; [reflexivity|]. split; [lia|].
    apply HL; [reflexivity | reflexivity | lia].
  - split; [reflexivity|]. split; [reflexivity|]. split; [lia|].
    apply HT; [reflexivity | reflexivity | lia].
Defined.

(** ** C8 *)

Lemma LocalContext_Connect_not_listening_witness :
  listening (ctx listeningB) !! addrA = None
  ∧ LocalContext_Connect listeningB addrB addrA
    = ((None, Some (fmt_Errorf "%s can't connect to %s: it's not listening"
                               [ArgAddress addrB; ArgAddress addrA])), listeningB).
Proof.
  split; [reflexivity|].
  apply (LocalContext_Connect_not_listening listeningB addrB addrA). reflexivity.
Defined.

(** ** C9 *)

Lemma TCPConn_Receive_recovers_witness :
  TCPConn_receive 4 BigEndian oneFrame connTCP
  = (Return ([Byte.x01; Byte.x02], None), TCPConn_addReadBytes connTCP 2, [])
  ∧ panickingDecoder [Byte.x01; Byte.x02] = Panics (panic_value "unregistered message type")
  ∧ (∀ v, (TCPConn_Receive emptyPacket 4 BigEndian panickingDecoder tagName oneFrame
             connTCP context_Background).1.1 ≠ Panics v)
  ∧ TCPConn_Receive emptyPacket 4 BigEndian panickingDecoder tagName oneFrame connTCP
      context_Background
    = (Return (emptyPacket,
               Some (fmt_Errorf "Error Received message: %v"
                       [ArgPanic (panic_value "unregistered message type")])),
       TCPConn_addReadBytes connTCP 2, []).
Proof.
  destruct (TCPConn_Receive_recovers emptyPacket 4 BigEndian panickingDecoder tagName
              oneFrame connTCP context_Background) as [Hnp Hrec].
  split; [reflexivity|]. split; [reflexivity|]. split; [exact Hnp|].
  apply (Hrec [Byte.x01; Byte.x02]); reflexivity.
Defined.

(** ** C10 *)

Lemma Local_rejects_other_types_witness :
  ConnType_of addrTCP ≠ Local
  ∧ LocalHost_Connect 10 100 listeningB hostA addrTCP
    = ((None, Some (errors_New "Can't connect to non-Local address")), listeningB, [])
  ∧ LocalListener_bind (ctx listeningB) (lh_listener hostA) addrTCP
    = (Some (errors_New "Wrong address type for local listener"), lh_listener hostA)
  ∧ NewLocalListenerWithContext (ctx listeningB) addrTCP
    = ({| ll_addr := Address_zero; ll_listening := false; ll_quit := ChanOpen |},
       Some (errors_New "Wrong address type for local listener")).
Proof.
  assert (ConnType_of addrTCP ≠ Local) as H by discriminate.
  split; [exact H|].
  exact (Local_rejects_other_types 10 100 listeningB hostA (ctx listeningB)
           (lh_listener hostA) addrTCP H).
Defined.

(** * Further scenarios *)

Definition addrC : Address := NewLocalAddress "C".

(** A third node has connected to [B] as well. *)
Definition outgoingCB : LocalConn :=
  {| local := Endpoint addrC 2; remote := Endpoint addrB 3; connQueue_of := 2 |}.
Definition twoConnections : @World string nat string :=
  (LocalContext_Connect connectedAB addrC addrB).2.

Lemma World_wf_listeningB : World_wf listeningB.
Proof.
  split; [done|]. split.
  - intros e q H. cbn in H. by rewrite lookup_empty in H.
  - intros e1 e2 q H. cbn in H. by rewrite lookup_empty in H.
Qed.

Lemma World_wf_twoConnections : World_wf twoConnections.
Proof.
  apply World_wf_Connect; [|by vm_compute].
  apply World_wf_Connect; [|by vm_compute].
  apply World_wf_listeningB.
Qed.

(** A decoder that succeeds, a socket, and dial and bind schedules. *)
Definition pingDecoder (_ : list Byte.byte)
  : Outcome (@Packet string nat * option error) :=
  Return (ping, None).

Definition sockTCP : netConn :=
  {| nc_LocalAddr := "10.0.0.1:40000"; nc_RemoteAddr := "10.0.0.2:2000";
     nc_written := [] |}.

Definition refusedError : syserror := sys_net "connection refused" false false.

Definition thirdDialSucceeds (j : nat) : netConn + syserror :=
  if (j <? 2)%nat then inr refusedError else inl sockTCP.

Definition inUse : syserror := sys_plain "bind: address already in use".

Definition fourthBindSucceeds (j : nat) : option syserror :=
  if (j <? 3)%nat then Some inUse else None.

(** A listener whose [Listen] failed to bind. *)
Definition listenerUnbound : TCPListener :=
  (TCPListener_listen 10 100 (λ _, Some inUse) NewTCPListener).1.2.

(** ** X2 *)


(** The nil pointer and the nil interface on the same connection: [Send]
    panics and the peer's queue stays empty. *)
Example LocalConn_Send_nil_panics :
  LocalConn_Send tagOf reflectOf connectedAB outgoingAB context_Background "*"
  = (Panics (panic_value "reflect: call of reflect.Value.Interface on zero Value"),
     connectedAB)
  ∧ LocalConn_Send tagOf reflectOf connectedAB outgoingAB context_Background ""
    = (Panics (panic_value "reflect: call of reflect.Value.Interface on zero Value"),
       connectedAB)
  ∧ heap connectedAB !! connQueue_of incomingAB = Some newConnQueue.
Proof. by vm_compute. Qed.

(** ** X3 *)

Lemma LocalContext_Connect_full_duplex_witness :
  listening (ctx listeningB) !! addrB = Some "onAccept"
  ∧ Forall2 (λ msg body, sent_body reflectOf msg = Return body) ["*ping"] ["ping"]
  ∧ Forall2 (λ msg body, sent_body reflectOf msg = Return body) ["pong"] ["pong"]
  ∧ ∃ outgoing incoming w1,
      LocalContext_Connect listeningB addrA addrB = ((Some outgoing, None), w1)
      ∧ spawned w1 = spawned listeningB ++ [("onAccept", incoming)]
      ∧ LocalConn_Local outgoing = addrA ∧ LocalConn_Remote outgoing = addrB
      ∧ LocalConn_Local incoming = addrB ∧ LocalConn_Remote incoming = addrA
      ∧ let '(outsAB, w2) :=
          LocalConn_Sends tagOf reflectOf w1 outgoing context_Background ["*ping"] in
        let '(outsBA, w3) :=
          LocalConn_Sends tagOf reflectOf w2 incoming context_Background ["pong"] in
        outsAB = replicate (length ["*ping"]) (Return None)
        ∧ outsBA = replicate (length ["pong"]) (Return None)
        ∧ (LocalConn_Receives emptyPacket (S (length ["*ping"])) w3 incoming
             context_Background).1
          = ((λ p, Return (p, None)) <$> (packet_of tagOf <$> ["ping"]))
            ++ [Blocks]
        ∧ (LocalConn_Receives emptyPacket (S (length ["pong"])) w3 outgoing
             context_Background).1
          = ((λ p, Return (p, None)) <$> (packet_of tagOf <$> ["pong"]))
            ++ [Blocks].
Proof.
  assert (Forall2 (λ msg body, sent_body reflectOf msg = Return body)
                  ["*ping"] ["ping"]) as H2 by (repeat constructor).
  assert (Forall2 (λ msg body, sent_body reflectOf msg = Return body)
                  ["pong"] ["pong"]) as H3 by (repeat constructor).
  split; [reflexivity|]. split; [exact H2|]. split; [exact H3|].
  exact (LocalContext_Connect_full_duplex tagOf reflectOf emptyPacket listeningB
           addrA addrB "onAccept" context_Background ["*ping"] ["ping"] ["pong"] ["pong"]
           eq_refl H2 H3).
Defined.

(** ** X4 *)


(** ** X6 *)

Lemma World_wf_preserved_witness :
  World_wf twoConnections
  ∧ (∀ a b, (baseUid (ctx twoConnections) + 2 < uint64_modulus)%Z →
            World_wf (LocalContext_Connect twoConnections a b).2)
  ∧ (∀ cc cx msg, World_wf (LocalConn_Send tagOf noPointer twoConnections cc cx msg).2)
  ∧ (∀ cc cx, World_wf (LocalConn_Receive emptyPacket twoConnections cc cx).2)
  ∧ (∀ cc, World_wf (LocalConn_Close twoConnections cc).2).
Proof.
  split; [exact World_wf_twoConnections|].
  exact (World_wf_preserved tagOf noPointer emptyPacket twoConnections
           World_wf_twoConnections).
Defined.

(** ** X7 *)

Lemma LocalConn_isolated_witness :
  World_wf twoConnections
  ∧ queues (ctx twoConnections) !! Endpoint addrB 1 = Some 1%nat
  ∧ Endpoint addrB 1 ≠ remote outgoingCB
  ∧ Endpoint addrB 1 ≠ local outgoingCB
  ∧ queues (ctx twoConnections) !! local outgoingCB = Some (connQueue_of outgoingCB)
  ∧ (queues (ctx (LocalConn_Send tagOf noPointer twoConnections outgoingCB
                    context_Background "ping").2) !! Endpoint addrB 1 = Some 1%nat
     ∧ heap (LocalConn_Send tagOf noPointer twoConnections outgoingCB
               context_Background "ping").2 !! 1%nat
       = heap twoConnections !! 1%nat)
  ∧ queues (ctx (LocalConn_Close twoConnections outgoingCB).2) !! Endpoint addrB 1
    = Some 1%nat
  ∧ heap (LocalConn_Close twoConnections outgoingCB).2 !! 1%nat
    = heap twoConnections !! 1%nat.
Proof.
  assert (Endpoint addrB 1 ≠ remote outgoingCB) as H3 by discriminate.
  assert (Endpoint addrB 1 ≠ local outgoingCB) as H4 by discriminate.
  destruct (LocalConn_isolated tagOf noPointer twoConnections outgoingCB
              context_Background "ping" (Endpoint addrB 1) 1%nat
              World_wf_twoConnections eq_refl H3) as [HS HC].
  split; [exact World_wf_twoConnections|]. split; [reflexivity|].
  split; [exact H3|]. split; [exact H4|]. split; [reflexivity|].
  split; [exact HS|]. exact (HC H4 eq_refl).
Defined.

(** ** X8 *)

Lemma LocalContext_Connect_Close_restores_witness :
  World_wf listeningB
  ∧ (baseUid (ctx listeningB) + 1 < uint64_modulus)%Z
  ∧ listening (ctx listeningB) !! addrB = Some "onAccept"
  ∧ ∃ outgoing incoming w1,
      LocalContext_Connect listeningB addrA addrB = ((Some outgoing, None), w1)
      ∧ spawned w1 = spawned listeningB ++ [("onAccept", incoming)]
      ∧ LocalContext_Len (ctx w1) = (LocalContext_Len (ctx listeningB) + 2)%nat
      ∧ queues (ctx (LocalConn_Close w1 outgoing).2) = queues (ctx listeningB)
      ∧ queues (ctx (LocalConn_Close w1 incoming).2) = queues (ctx listeningB).
Proof.
  assert (baseUid (ctx listeningB) + 1 < uint64_modulus)%Z as H2 by (by vm_compute).
  split; [exact World_wf_listeningB|]. split; [exact H2|]. split; [reflexivity|].
  exact (LocalContext_Connect_Close_restores listeningB addrA addrB "onAccept"
           World_wf_listeningB H2 eq_refl).
Defined.

(** ** X9 *)

Lemma LocalListener_lifecycle_witness :
  ConnType_of addrB = Local
  ∧ listening (ctx (@NewWorld string nat string)) !! addrB = None
  ∧ let w := @NewWorld string nat string in
    let '(l0, err0) := NewLocalListenerWithContext (ctx w) addrB in
    let '(_, l1, ccc1) := LocalListener_Listen (ctx w) l0 "onAccept" in
    let w1 := {| ctx := ccc1; heap := heap w; spawned := spawned w |} in
    let '(r2, l2, ccc2) := LocalListener_Stop ccc1 l1 in
    err0 = None ∧ ll_addr l0 = addrB
    ∧ LocalContext_IsListening ccc1 addrB = true ∧ ll_listening l1 = true
    ∧ (∃ outgoing incoming w2,
          LocalContext_Connect w1 addrA addrB = ((Some outgoing, None), w2)
          ∧ spawned w2 = spawned w ++ [("onAccept", incoming)])
    ∧ r2 = Return None ∧ ll_listening l2 = false
    ∧ LocalContext_IsListening ccc2 addrB = false
    ∧ (∀ b, b ≠ addrB → listening ccc2 !! b = listening (ctx w) !! b)
    ∧ LocalContext_Connect {| ctx := ccc2; heap := heap w; spawned := spawned w |}
        addrA addrB
      = ((None, Some (not_listening_error addrA addrB)),
         {| ctx := ccc2; heap := heap w; spawned := spawned w |})
    ∧ LocalListener_Stop ccc2 l2 = (Return None, l2, ccc2).
Proof.
  split; [reflexivity|]. split; [reflexivity|].
  exact (LocalListener_lifecycle (@NewWorld string nat string) addrB addrA "onAccept"
           eq_refl eq_refl).
Defined.

(** ** X10 *)

Lemma LocalHost_Connect_listening_witness :
  ConnType_of addrB = Local
  ∧ listening (ctx listeningB) !! addrB = Some "onAccept"
  ∧ (0 < 10)%nat
  ∧ LocalHost_Connect 10 100 listeningB hostA addrB
    = (LocalContext_Connect listeningB (lh_addr hostA) addrB,
       [EvConnect (lh_addr hostA) addrB])
  ∧ ∃ c w', LocalContext_Connect listeningB (lh_addr hostA) addrB = ((Some c, None), w')
            ∧ LocalConn_Local c = lh_addr hostA ∧ LocalConn_Remote c = addrB.
Proof.
  assert (0 < 10)%nat as H3 by lia.
  split; [reflexivity|]. split; [reflexivity|]. split; [exact H3|].
  exact (LocalHost_Connect_listening 10 100 listeningB hostA addrB "onAccept"
           eq_refl eq_refl H3).
Defined.

(** ** X11 *)

(** A timeout on a closed connection is [ErrClosed]; an error that is
    temporary and a timeout is [ErrTemp]; a plain timeout is
    [ErrTimeout]. *)
Lemma handleError_kinds_witness :
  let err := sys_net "write tcp: use of closed network connection" false true in
  let temp := sys_net "resource temporarily unavailable" true true in
  let late := sys_net "i/o timeout" false true in
  sys_Error err = "write tcp: " +:+ "use of closed" +:+ " network connection"
  ∧ handleError err = ErrClosed
  ∧ handleError err ∈ [ErrClosed; ErrCanceled; ErrEOF; ErrTemp; ErrTimeout; ErrUnknown]
  ∧ ¬ mentions (sys_Error temp) "use of closed"
  ∧ ¬ mentions (sys_Error temp) "broken pipe"
  ∧ ¬ mentions (sys_Error temp) "canceled"
  ∧ ¬ mentions (sys_Error temp) "EOF"
  ∧ handleError temp = ErrTemp
  ∧ ¬ mentions (sys_Error late) "use of closed"
  ∧ ¬ mentions (sys_Error late) "broken pipe"
  ∧ ¬ mentions (sys_Error late) "canceled"
  ∧ ¬ mentions (sys_Error late) "EOF"
  ∧ handleError late = ErrTimeout.
Proof.
  intros err temp late.
  destruct (handleError_kinds err) as (Hin & Hclosed & _).
  destruct (handleError_kinds temp) as (_ & _ & _ & _ & Htemp).
  destruct (handleError_kinds late) as (_ & _ & _ & _ & Hlate).
  assert (¬ mentions (sys_Error temp) "use of closed") as T1
    by (apply not_mentions; reflexivity).
  assert (¬ mentions (sys_Error temp) "broken pipe") as T2
    by (apply not_mentions; reflexivity).
  assert (¬ mentions (sys_Error temp) "canceled") as T3
    by (apply not_mentions; reflexivity).
  assert (¬ mentions (sys_Error temp) "EOF") as T4
    by (apply not_mentions; reflexivity).
  assert (¬ mentions (sys_Error late) "use of closed") as L1
    by (apply not_mentions; reflexivity).
  assert (¬ mentions (sys_Error late) "broken pipe") as L2
    by (apply not_mentions; reflexivity).
  assert (¬ mentions (sys_Error late) "canceled") as L3
    by (apply not_mentions; reflexivity).
  assert (¬ mentions (sys_Error late) "EOF") as L4
    by (apply not_mentions; reflexivity).
  destruct (Htemp T1 T2) as [_ Htemp3]. destruct (Htemp3 T3) as [_ Htemp4].
  destruct (Htemp4 T4) as (Htemporary & _ & _).
  destruct (Hlate L1 L2) as [_ Hlate3]. destruct (Hlate3 L3) as [_ Hlate4].
  destruct (Hlate4 L4) as (_ & Htimeout & _).
  split; [reflexivity|].
  split; [exact (Hclosed "write tcp: " " network connection" (or_introl eq_refl))|].
  split; [exact Hin|].
  split; [exact T1|]. split; [exact T2|]. split; [exact T3|]. split; [exact T4|].
  split; [exact (Htemporary _ _ eq_refl)|].
  split; [exact L1|]. split; [exact L2|]. split; [exact L3|]. split; [exact L4|].
  exact (Htimeout _ eq_refl).
Defined.

(** ** X13 *)

Definition twoBytes : list Byte.byte := [Byte.x01; Byte.x02].

(** The frame of [twoBytes], cut in the middle of the prefix and in the
    middle of the payload. *)
Definition cutFrame : list (list Byte.byte) :=
  [[Byte.x00; Byte.x00]; [Byte.x00; Byte.x02; Byte.x01]; [Byte.x02]].

Lemma TCPConn_receive_reassembles_witness :
  (Z.of_nat (length twoBytes) < Size_modulus 4)%Z
  ∧ Forall (λ s, s ≠ []) cutFrame
  ∧ mjoin cutFrame = Size_encode 4 BigEndian (Z.of_nat (length twoBytes)) ++ twoBytes
  ∧ TCPConn_receive 4 BigEndian ((ReadData <$> cutFrame) ++ [ReadErr io_EOF]) connTCP
    = (Return (twoBytes, None),
       TCPConn_addReadBytes connTCP (Z.of_nat (length twoBytes)), [ReadErr io_EOF])
  ∧ TCPConn_Rx (TCPConn_addReadBytes connTCP (Z.of_nat (length twoBytes)))
    = uint64_add (TCPConn_Rx connTCP) (Z.of_nat (length twoBytes))
  ∧ TCPConn_Tx (TCPConn_addReadBytes connTCP (Z.of_nat (length twoBytes)))
    = TCPConn_Tx connTCP.
Proof.
  assert (Z.of_nat (length twoBytes) < Size_modulus 4)%Z as H1 by (by vm_compute).
  assert (Forall (λ s : list Byte.byte, s ≠ []) cutFrame) as H2
    by (repeat constructor; discriminate).
  split; [exact H1|]. split; [exact H2|]. split; [reflexivity|].
  exact (TCPConn_receive_reassembles 4 BigEndian connTCP twoBytes cutFrame
           [ReadErr io_EOF] H1 H2 eq_refl).
Defined.

(** ** X14 *)

Lemma TCPConn_send_receive_round_trip_witness :
  let sent := TCPConn_send 4 BigEndian (replicate 4 WriteOk) connTCP payload3000 in
  (0 < 4)%nat
  ∧ (Z.of_nat (length payload3000) < Size_modulus 4)%Z
  ∧ TCPConn_send 4 BigEndian (replicate 4 WriteOk) connTCP payload3000
    = (Return None, sent.1.2, sent.2)
  ∧ ∃ slices,
      nc_written (tc_conn sent.1.2) = nc_written (tc_conn connTCP) ++ slices
      ∧ Forall (λ s, s ≠ []) slices
      ∧ ∀ (peer : TCPConn) (segs : list (list Byte.byte)) (tail : list ReadOutcome),
          Forall (λ s, s ≠ []) segs →
          mjoin segs = mjoin slices →
          TCPConn_receive 4 BigEndian ((ReadData <$> segs) ++ tail) peer
          = (Return (payload3000, None),
             TCPConn_addReadBytes peer (Z.of_nat (length payload3000)), tail).
Proof.
  intros sent.
  assert (0 < 4)%nat as H1 by lia.
  assert (Z.of_nat (length payload3000) < Size_modulus 4)%Z as H2 by (by vm_compute).
  assert (TCPConn_send 4 BigEndian (replicate 4 WriteOk) connTCP payload3000
          = (Return None, sent.1.2, sent.2)) as H3 by (by vm_compute).
  split; [exact H1|]. split; [exact H2|]. split; [exact H3|].
  exact (TCPConn_send_receive_round_trip 4 BigEndian (replicate 4 WriteOk) connTCP
           sent.1.2 sent.2 payload3000 H1 H2 H3).
Defined.

(** ** X15 *)

(** A payload of ten bytes announced; four of them arrive first, then ten
    more bytes: the other six and four bytes of whatever follows. *)
Definition firstFour : list Byte.byte := replicate 4 Byte.x61.
Definition nextTen : list Byte.byte := replicate 6 Byte.x61 ++ replicate 4 Byte.x00.

Lemma TCPConn_receive_reads_past_frame_witness :
  (length firstFour < 10)%nat
  ∧ (10 - length firstFour < length nextTen ≤ 10)%nat
  ∧ (Z.of_nat (length firstFour + length nextTen) < Size_modulus 4)%Z
  ∧ TCPConn_receive 4 BigEndian
      (ReadData (Size_encode 4 BigEndian (Z.of_nat 10))
       :: ReadData firstFour :: ReadData nextTen :: []) connTCP
    = (Return (firstFour ++ nextTen, None),
       TCPConn_addReadBytes connTCP (Z.of_nat (length firstFour + length nextTen)), [])
  ∧ (10 < length (firstFour ++ nextTen))%nat.
Proof.
  assert (length firstFour < 10)%nat as H1 by (vm_compute; lia).
  assert (10 - length firstFour < length nextTen ≤ 10)%nat as H2 by (vm_compute; lia).
  assert (Z.of_nat (length firstFour + length nextTen) < Size_modulus 4)%Z as H3
    by (by vm_compute).
  split; [exact H1|]. split; [exact H2|]. split; [exact H3|].
  exact (TCPConn_receive_reads_past_frame 4 BigEndian connTCP 10 firstFour nextTen []
           H1 H2 H3).
Defined.

(** ** X16 *)

Lemma TCPConn_Receive_results_witness :
  TCPConn_Receive emptyPacket 4 BigEndian pingDecoder tagName oneFrame connTCP
    context_Background
  = (Return ({| MsgType := 1%nat; Msg := "ping";
                From := NewAddress PlainTCP "10.0.0.2:2000" |}, None),
     TCPConn_addReadBytes connTCP 2, [])
  ∧ ∃ buff am,
      TCPConn_receive 4 BigEndian oneFrame connTCP
      = (Return (buff, None), TCPConn_addReadBytes connTCP 2, [])
      ∧ pingDecoder buff = Return (am, None)
      ∧ {| MsgType := 1%nat; Msg := "ping"; From := NewAddress PlainTCP "10.0.0.2:2000" |}
        = {| MsgType := MsgType am; Msg := Msg am;
             From := NewAddress PlainTCP (TCPConn_Remote connTCP) |}.
Proof.
  split; [reflexivity|].
  exact (TCPConn_Receive_results emptyPacket 4 BigEndian pingDecoder tagName oneFrame
           connTCP (TCPConn_addReadBytes connTCP 2) context_Background
           {| MsgType := 1%nat; Msg := "ping";
              From := NewAddress PlainTCP "10.0.0.2:2000" |}
           None [] eq_refl).
Defined.

(** ** X17 *)

Lemma NewTCPConn_first_success_witness :
  (∀ j, (j < 2)%nat → thirdDialSucceeds j = inr ((λ _, refusedError) j))
  ∧ thirdDialSucceeds 2 = inl sockTCP
  ∧ (2 < 10)%nat
  ∧ NewTCPConn 10 100 thirdDialSucceeds "10.0.0.2:2000"
    = ((Some {| tc_endpoint := "10.0.0.2:2000"; tc_conn := sockTCP; tc_closed := false;
                bRx := 0; bTx := 0 |}, None),
       mjoin (replicate 2 [EvDial "10.0.0.2:2000"; EvSleep 100; EvSleep 100])
       ++ [EvDial "10.0.0.2:2000"]).
Proof.
  assert (∀ j, (j < 2)%nat → thirdDialSucceeds j = inr ((λ _, refusedError) j)) as H1.
  { intros [|[|j]] Hj; [reflexivity | reflexivity | lia]. }
  assert (2 < 10)%nat as H3 by lia.
  split; [exact H1|]. split; [reflexivity|]. split; [exact H3|].
  exact (NewTCPConn_first_success 10 100 2 thirdDialSucceeds (λ _, refusedError) sockTCP
           "10.0.0.2:2000" H1 eq_refl H3).
Defined.

(** ** X18 *)

Lemma TCPListener_listen_bind_retry_witness :
  (0 < 10)%nat
  ∧ (3 < 10)%nat
  ∧ (∀ j, (j < 3)%nat → fourthBindSucceeds j = Some ((λ _, inUse) j))
  ∧ fourthBindSucceeds 3 = None
  ∧ TCPListener_listen 10 100 fourthBindSucceeds NewTCPListener
    = (Blocks,
       {| tl_listener := Some ListenerOpen; tl_quit := ChanOpen;
          tl_listening := true; tl_connType := tl_connType NewTCPListener |},
       replicate 3 (EvSleep 100))
  ∧ (∀ j : nat, (λ _, Some inUse) j = Some ((λ _, inUse) j))
  ∧ TCPListener_listen 10 100 (λ _, Some inUse) NewTCPListener
    = (Return (Some (errors_New ("Error opening listener: "
                                 +:+ sys_Error ((λ _, inUse) (10 - 1)%nat)))),
       {| tl_listener := tl_listener NewTCPListener; tl_quit := ChanOpen;
          tl_listening := true; tl_connType := tl_connType NewTCPListener |},
       replicate (10 - 1) (EvSleep 100)).
Proof.
  assert (0 < 10)%nat as H0 by lia.
  assert (3 < 10)%nat as H1 by lia.
  assert (∀ j, (j < 3)%nat → fourthBindSucceeds j = Some ((λ _, inUse) j)) as H2.
  { intros [|[|[|j]]] Hj; [reflexivity | reflexivity | reflexivity | lia]. }
  destruct (TCPListener_listen_bind_retry 10 100 fourthBindSucceeds (λ _, inUse)
              NewTCPListener H0) as [Hok _].
  destruct (TCPListener_listen_bind_retry 10 100 (λ _, Some inUse) (λ _, inUse)
              NewTCPListener H0) as [_ Hfail].
  split; [exact H0|]. split; [exact H1|]. split; [exact H2|]. split; [reflexivity|].
  split; [exact (Hok 3%nat H1 H2 eq_refl)|].
  split; [reflexivity|]. exact (Hfail (λ _, eq_refl)).
Defined.

(** ** X19 *)

Lemma TCPListener_Stop_outcomes_witness :
  tl_listening listenerStarted = true
  ∧ tl_quit listenerStarted = ChanOpen
  ∧ tl_listener listenerStarted = Some ListenerOpen
  ∧ TCPListener_Stop [true; false] listenerStarted
    = (Return None,
       {| tl_listener := Some ListenerClosed; tl_quit := ChanClosed;
          tl_listening := true; tl_connType := tl_connType listenerStarted |})
  ∧ TCPListener_Stop [false; false] listenerStarted
    = (Return (Some (sysError (sys_net "use of closed network connection" false false))),
       {| tl_listener := Some ListenerClosed; tl_quit := ChanClosed;
          tl_listening := true; tl_connType := tl_connType listenerStarted |})
  ∧ tl_listening listenerUnbound = true
  ∧ tl_quit listenerUnbound = ChanOpen
  ∧ tl_listener listenerUnbound = None
  ∧ Forall (λ a, a = false) [false; false; false]
  ∧ TCPListener_Stop [false; false; false] listenerUnbound
    = (Blocks,
       {| tl_listener := None; tl_quit := ChanClosed;
          tl_listening := true; tl_connType := tl_connType listenerUnbound |}).
Proof.
  assert (Forall (λ a, a = false) [false; false; false]) as HF by (by repeat constructor).
  destruct (TCPListener_Stop_outcomes [false] listenerStarted eq_refl eq_refl)
    as [Hrun _].
  destruct (TCPListener_Stop_outcomes [false; false; false] listenerUnbound
              eq_refl eq_refl) as [_ Hhang].
  destruct (Hrun eq_refl) as [Hack Hlate].
  do 3 (split; [reflexivity|]). split; [exact Hack|]. split; [exact Hlate|].
  do 3 (split; [reflexivity|]). split; [exact HF|]. exact (Hhang eq_refl HF).
Defined.

(** ** X20 *)

Lemma TCPConn_send_outcomes_witness :
  let env := [WriteOk; WriteOk; WriteErr (sys_plain "broken pipe")] in
  let sent := TCPConn_send 4 BigEndian env connTCP payload2000 in
  (Z.of_nat (length payload2000) < Size_modulus 4)%Z
  ∧ TCPConn_send 4 BigEndian env connTCP payload2000
    = (Return (Some ErrClosed), sent.1.2, [])
  ∧ (tc_endpoint sent.1.2 = tc_endpoint connTCP
     ∧ tc_closed sent.1.2 = tc_closed connTCP
     ∧ TCPConn_Rx sent.1.2 = TCPConn_Rx connTCP)
  ∧ ((∃ err, env = WriteErr err :: [] ∧ ErrClosed = sysError err ∧ sent.1.2 = connTCP)
     ∨ (∃ k err, env = replicate (S k) WriteOk ++ WriteErr err :: []
                 ∧ ErrClosed = handleError err)).
Proof.
  intros env sent.
  assert (Z.of_nat (length payload2000) < Size_modulus 4)%Z as H1 by (by vm_compute).
  assert (TCPConn_send 4 BigEndian env connTCP payload2000
          = (Return (Some ErrClosed), sent.1.2, [])) as H2 by (by vm_compute).
  split; [exact H1|]. split; [exact H2|].
  exact (TCPConn_send_outcomes 4 BigEndian env connTCP sent.1.2 payload2000
           (Return (Some ErrClosed)) [] H1 H2).
Defined.

(** ** X21 *)

Lemma LocalListener_Stop_idle_unregisters_witness :
  ConnType_of addrB = Local
  ∧ listening (@NewLocalContext string) !! addrB = None
  ∧ let ccc := @NewLocalContext string in
    let '(l1, err1) := NewLocalListenerWithContext ccc addrB in
    let '(l2, err2) := NewLocalListenerWithContext ccc addrB in
    let '(_, l1', ccc1) := LocalListener_Listen ccc l1 "onAccept" in
    let '(r, l2', ccc2) := LocalListener_Stop ccc1 l2 in
    err1 = None ∧ err2 = None
    ∧ LocalContext_IsListening ccc1 addrB = true
    ∧ ll_listening l2 = false
    ∧ r = Return None
    ∧ ll_listening l1' = true
    ∧ LocalContext_IsListening ccc2 addrB = false.
Proof.
  split; [reflexivity|]. split; [reflexivity|].
  exact (LocalListener_Stop_idle_unregisters (@NewLocalContext string) addrB "onAccept"
           eq_refl eq_refl).
Defined.
